(** * Call-stack tree reconstruction of the record viewer (utils.ts)

    A shallow embedding of [getNameFromCell], [getStartAndEndTimes],
    [addCallToTree] and [createTreeFromCalls], twice:

    - over an object store, a state-and-exception monad in which tree nodes
      are mutable cells and the records of the input are cells the code only
      reads (the source's names);
    - as plain functions on an immutable tree ([StackTree], names ending in
      [_pure]), the mathematical reading of the same code.

    The two are related by a simulation theorem, and the properties of the
    reconstruction are proved for the store model through it. *)

From Stdlib Require Import ZArith Lia.
From stdpp Require Import base strings numbers option list.

Open Scope Z_scope.
Open Scope nat_scope.

(** ** JavaScript numbers, dates and strings *)

(** The numbers the comparisons of [addCallToTree] see: a time value (an
    integral number of milliseconds since the epoch), the defaults [0] and
    [Infinity], and [NaN], the time value of an Invalid Date. *)
Inductive number :=
  | Num (z : Z)
  | Infinity
  | NaN.

(** [a <= b] on numbers; every comparison with [NaN] is false. *)
Definition number_le (a b : number) : bool :=
  match a, b with
  | Num x, Num y => (x <=? y)%Z
  | Num _, Infinity => true
  | Infinity, Infinity => true
  | _, _ => false
  end.

(** [a >= b] on numbers. *)
Definition number_ge (a b : number) : bool := number_le b a.

(** A [Date] object is its time value; [None] is the Invalid Date. Dates are
    never mutated by this code, so they are kept as values. *)
Definition Date := option Z.

(** The number a [Date] converts to when it is compared. *)
Definition valueOf (d : Date) : number :=
  match d with
  | Some t => Num t
  | None => NaN
  end.

(** [v ?? d] with the result read as a number. *)
Definition nullish (v : option Date) (d : number) : number :=
  match v with
  | Some x => valueOf x
  | None => d
  end.

(** Truthiness of a string: every string but the empty one. *)
Definition truthy (s : string) : bool := negb (String.eqb s EmptyString).

(** ** The JSON of a record (types.ts, as this file uses it) *)

(** Modelled from the spec: the declarations of [./types] are not part of the
    sources at hand; the shapes below are the ones the field accesses of
    utils.ts and the input contract of the specification give. A field of type
    [option] may be [undefined]. *)
Record ClassJSONRaw := { cls_name : string }.
Record ObjJSONRaw := { cls : ClassJSONRaw }.
Record MethodJSONRaw := { obj : ObjJSONRaw }.
Record StackJSONRaw := { method : MethodJSONRaw }.

Record PerfJSONRaw := {
  start_time : option string;
  end_time : option string
}.

(** The payloads [args] and [rets] are never inspected; they are kept as
    their serialised text. *)
Record CallJSONRaw := {
  stack : list StackJSONRaw;
  perf : PerfJSONRaw;
  args : string;
  rets : string
}.

(** ** Exceptions *)

(** [TypeError] is the exception a property read on [undefined] raises.
    [BadRef] and [OutOfFuel] are faults of the model, not of JavaScript: a
    reference that does not hold an object of the expected kind, and a
    recursion cut short. *)
Inductive error :=
  | TypeError
  | BadRef
  | OutOfFuel.

(** The result of an expression that reads no object. *)
Inductive result (A : Type) :=
  | Done (a : A)
  | Raise (e : error).
Arguments Done {A} a.
Arguments Raise {A} e.

Definition rbind {A B} (m : result A) (k : A -> result B) : result B :=
  match m with
  | Done a => k a
  | Raise e => Raise e
  end.

Notation "'let!' x ':=' m 'in' k" := (rbind m (fun x => k))
  (at level 10, x name, m at level 100, k at level 200).

(** [getNameFromCell]; the argument is [stack[index]], which is [undefined]
    out of range, and reading [.method] of [undefined] throws. *)
Definition getNameFromCell (stackCell : option StackJSONRaw) : result string :=
  match stackCell with
  | Some c => Done (cls_name (cls (obj (method c))))
  | None => Raise TypeError
  end.

(** ** The object store *)

(** A reference: the index of a cell of the store. *)
Abbreviation loc := nat (only parsing).

(** A record refers to its calls; the calls are objects of their own. *)
Record RecordJSONRaw := {
  record_perf : PerfJSONRaw;
  calls : list loc
}.

(** A tree node as the code holds it: [children] lists references to other
    nodes, [raw] refers to the call that closed the node. *)
Record StackTreeNode := {
  children : option (list loc);
  name : string;
  startTime : option Date;
  endTime : option Date;
  raw : option loc
}.

Inductive object :=
  | ORecord (r : RecordJSONRaw)
  | OCall (c : CallJSONRaw)
  | ONode (n : StackTreeNode).

(** The store grows at its end: a new object gets the next free index. *)
Abbreviation heap := (list object) (only parsing).

Inductive outcome (A : Type) :=
  | Ok (a : A) (h : heap)
  | Throw (e : error) (h : heap).
Arguments Ok {A} a h.
Arguments Throw {A} e h.

(** Computations over the store that may throw. *)
Definition M (A : Type) := heap -> outcome A.

Definition ret {A} (a : A) : M A := fun h => Ok a h.

Definition bind {A B} (m : M A) (k : A -> M B) : M B :=
  fun h =>
    match m h with
    | Ok a h' => k a h'
    | Throw e h' => Throw e h'
    end.

Definition throw {A} (e : error) : M A := fun h => Throw e h.

Definition lift {A} (r : result A) : M A :=
  match r with
  | Done a => ret a
  | Raise e => throw e
  end.

Notation "x <- m ;; k" := (bind m (fun x => k))
  (at level 100, m at next level, right associativity).
Notation "m ;;; k" := (bind m (fun _ => k))
  (at level 100, right associativity).

Definition getNode (l : loc) : M StackTreeNode :=
  fun h =>
    match h !! l with
    | Some (ONode n) => Ok n h
    | _ => Throw BadRef h
    end.

Definition setNode (l : loc) (n : StackTreeNode) : M unit :=
  fun h =>
    match h !! l with
    | Some (ONode _) => Ok tt (<[l := ONode n]> h)
    | _ => Throw BadRef h
    end.

(** An object literal for a node: a fresh cell. *)
Definition newNode (n : StackTreeNode) : M loc :=
  fun h => Ok (length h) (h ++ [ONode n]).

Definition getCall (l : loc) : M CallJSONRaw :=
  fun h =>
    match h !! l with
    | Some (OCall c) => Ok c h
    | _ => Throw BadRef h
    end.

Definition getRecord (l : loc) : M RecordJSONRaw :=
  fun h =>
    match h !! l with
    | Some (ORecord r) => Ok r h
    | _ => Throw BadRef h
    end.

(** [tree.children.push(node)]. *)
Definition push (tree node : loc) : M unit :=
  t <- getNode tree ;;
  match children t with
  | Some cs =>
      setNode tree {| children := Some (cs ++ [node]); name := name t;
                      startTime := startTime t; endTime := endTime t;
                      raw := raw t |}
  | None => throw TypeError
  end.

(** [Array.prototype.find] with a callback that reads the store and may
    throw: the first element the callback accepts. *)
Fixpoint find {A} (p : A -> M bool) (l : list A) : M (option A) :=
  match l with
  | [] => ret None
  | x :: l' =>
      b <- p x ;;
      if b then ret (Some x) else find p l'
  end.

(** ** The immutable tree *)

(** A tree as a value: the node cells of the store unfolded along
    [children]. [t_raw] keeps the reference of the call, as the cell does. *)
#[local] Unset Elimination Schemes.
Inductive StackTree :=
  | Tree (t_children : option (list StackTree)) (t_name : string)
         (t_startTime t_endTime : option Date) (t_raw : option loc).
#[local] Set Elimination Schemes.

Definition t_children (t : StackTree) : option (list StackTree) :=
  let 'Tree cs _ _ _ _ := t in cs.
Definition t_name (t : StackTree) : string :=
  let 'Tree _ n _ _ _ := t in n.
Definition t_startTime (t : StackTree) : option Date :=
  let 'Tree _ _ s _ _ := t in s.
Definition t_endTime (t : StackTree) : option Date :=
  let 'Tree _ _ _ e _ := t in e.
Definition t_raw (t : StackTree) : option loc :=
  let 'Tree _ _ _ _ r := t in r.

(** The children of a node, none when the field is absent. *)
Definition kids (t : StackTree) : list StackTree := default [] (t_children t).

(** [find] on values; the position of the element found is kept, to put the
    element back once it is updated. *)
Fixpoint find_pure {A} (p : A -> result bool) (l : list A)
  : result (option (nat * A)) :=
  match l with
  | [] => Done None
  | x :: l' =>
      let! b := p x in
      if b then Done (Some (0, x))
      else
        let! r := find_pure p l' in
        Done (prod_map S id <$> r)
  end.

(** The node at the end of a path of child positions, from [t]. *)
Fixpoint node_at (t : StackTree) (p : list nat) : option StackTree :=
  match p with
  | [] => Some t
  | i :: p' => kids t !! i ≫= λ c, node_at c p'
  end.

(** [t] with its [children] field set to [cs]. *)
Definition with_children (t : StackTree) (cs : list StackTree) : StackTree :=
  Tree (Some cs) (t_name t) (t_startTime t) (t_endTime t) (t_raw t).

(** [P] holds of every node of [t], each with its depth, [t] being at depth
    [d]; and of every node of [t] but [t]. *)
Definition all_nodes (P : nat → StackTree → Prop) (d : nat) (t : StackTree)
  : Prop :=
  ∀ path n, node_at t path = Some n → P (d + length path) n.

Definition all_below (P : nat → StackTree → Prop) (d : nat) (t : StackTree)
  : Prop :=
  ∀ i k, kids t !! i = Some k → all_nodes P (S d) k.

(** Every node of [t] is a node of [t'], at the same place and with the same
    name. *)
Definition embeds (t t' : StackTree) : Prop :=
  ∀ path n, node_at t path = Some n →
    ∃ n', node_at t' path = Some n' ∧ t_name n' = t_name n.

(** The nodes [n] and [n'] have the same timing and the same [raw]. *)
Definition same_fields (n n' : StackTree) : Prop :=
  t_startTime n' = t_startTime n ∧ t_endTime n' = t_endTime n
  ∧ t_raw n' = t_raw n.

(** The nodes of [t] at depth [d] below it, from left to right. *)
Fixpoint level (d : nat) (t : StackTree) : list StackTree :=
  match d with
  | O => [t]
  | S d' => kids t ≫= level d'
  end.

(** One more node at the depths [1] to [k], none elsewhere. *)
Definition one_upto (k d : nat) : nat :=
  if bool_decide (1 ≤ d ≤ k) then 1 else 0.

(** The name in a stack cell that is there. *)
Definition cellName (cell : StackJSONRaw) : string :=
  cls_name (cls (obj (method cell))).

(** ** Reading the input from the store *)

(** The call a reference leads to, with the reference. *)
Definition call_at (h : heap) (call : loc) : option (loc * CallJSONRaw) :=
  match h !! call with
  | Some (OCall c) => Some (call, c)
  | _ => None
  end.

Fixpoint calls_at (h : heap) (cs : list loc)
  : option (list (loc * CallJSONRaw)) :=
  match cs with
  | [] => Some []
  | call :: cs' =>
      match call_at h call, calls_at h cs' with
      | Some c, Some pcs => Some (c :: pcs)
      | _, _ => None
      end
  end.

(** The record a reference leads to: its overall timing and its calls. *)
Definition record_at (h : heap) (recordJSON : loc)
  : option (PerfJSONRaw * list (loc * CallJSONRaw)) :=
  match h !! recordJSON with
  | Some (ORecord r) =>
      match calls_at h (calls r) with
      | Some pcs => Some (record_perf r, pcs)
      | None => None
      end
  | _ => None
  end.

(** ** Trees in the store *)

(** A tree with, at each node, the reference of the cell that holds it: the
    shape the cells of the store have when no node is shared. *)
#[local] Unset Elimination Schemes.
Inductive LTree :=
  | LT (lt_loc : loc) (lt_children : option (list LTree)) (lt_name : string)
       (lt_startTime lt_endTime : option Date) (lt_raw : option loc).
#[local] Set Elimination Schemes.

Definition root_loc (t : LTree) : loc :=
  let 'LT l _ _ _ _ _ := t in l.
Definition lt_children (t : LTree) : option (list LTree) :=
  let 'LT _ cs _ _ _ _ := t in cs.
Definition lt_name (t : LTree) : string :=
  let 'LT _ _ n _ _ _ := t in n.
Definition lt_startTime (t : LTree) : option Date :=
  let 'LT _ _ _ s _ _ := t in s.
Definition lt_endTime (t : LTree) : option Date :=
  let 'LT _ _ _ _ e _ := t in e.
Definition lt_raw (t : LTree) : option loc :=
  let 'LT _ _ _ _ _ r := t in r.

Definition lkids (t : LTree) : list LTree := default [] (lt_children t).

(** The tree without the references. *)
Fixpoint erase (t : LTree) : StackTree :=
  let 'LT _ cs nm s e r := t in
  Tree (fmap (M:=option) (fmap (M:=list) erase) cs) nm s e r.

(** The cells of a tree, the root first. *)
Fixpoint locs (t : LTree) : list loc :=
  let 'LT l cs _ _ _ _ := t in
  l :: match cs with
       | Some ts => mjoin (fmap (M:=list) locs ts)
       | None => []
       end.

(** The cell the root of a tree is held in. *)
Definition cell_of (t : LTree) : StackTreeNode :=
  {| children := fmap (M:=option) (fmap (M:=list) root_loc) (lt_children t);
     name := lt_name t;
     startTime := lt_startTime t;
     endTime := lt_endTime t;
     raw := lt_raw t |}.

(** The store holds the tree [t]: each node in its cell. *)
#[local] Unset Elimination Schemes.
Inductive stored (h : heap) : LTree → Prop :=
  | stored_node t :
      h !! root_loc t = Some (ONode (cell_of t)) →
      Forall (stored h) (lkids t) →
      stored h t.
#[local] Set Elimination Schemes.

(** The cell [root] of the store [h] is the root of the tree [t], and no
    cell holds two nodes of it. *)
Definition represents (h : heap) (root : loc) (t : StackTree) : Prop :=
  ∃ lt, stored h lt ∧ NoDup (locs lt) ∧ root_loc lt = root ∧ erase lt = t.

(** [t] with the children [ks]. *)
Definition set_kids (t : LTree) (ks : list LTree) : LTree :=
  LT (root_loc t) (Some ks) (lt_name t) (lt_startTime t) (lt_endTime t)
     (lt_raw t).

(** The tree once [if (!tree.children) tree.children = []] has run on its
    root. *)
Definition init_children (t : LTree) : LTree := set_kids t (lkids t).

(** The store once a new node [n] is pushed on the children of the root of
    [t]. *)
Definition pushed (h : heap) (t : LTree) (n : StackTreeNode) : heap :=
  <[root_loc t :=
      ONode {| children := Some ((root_loc <$> lkids t) ++ [length h]);
               name := lt_name t; startTime := lt_startTime t;
               endTime := lt_endTime t; raw := lt_raw t |}]>
    (h ++ [ONode n]).

(** [h'] is [h] but for the cells [fp] and new cells. *)
Definition frame_outside (fp : list loc) (h h' : heap) : Prop :=
  length h ≤ length h' ∧ ∀ l, l < length h → l ∉ fp → h' !! l = h !! l.

(** The cells of [t'] are cells of [t] or new to the store [h]. *)
Definition fresh_cells (h : heap) (t t' : LTree) : Prop :=
  root_loc t' = root_loc t ∧ ∀ l, l ∈ locs t' → l ∈ locs t ∨ length h ≤ l.

(** ** Paths *)

(** The names of the nodes along a path of child positions from [t], [t]
    itself left out. *)
Fixpoint names_at (t : StackTree) (path : list nat) : option (list string) :=
  match path with
  | [] => Some []
  | i :: path' =>
      kids t !! i ≫= λ k, names_at k path' ≫= λ ns, Some (t_name k :: ns)
  end.

(** The cell a path of child positions leads to in the store, from the node
    cell [l]: at each step the reference in [children] at that position. *)
Fixpoint walk (h : heap) (l : loc) (path : list nat) : option loc :=
  match path with
  | [] => if h !! l is Some (ONode _) then Some l else None
  | i :: path' =>
      match h !! l with
      | Some (ONode n) =>
          default [] (children n) !! i ≫= λ k, walk h k path'
      | _ => None
      end
  end.

(** The same on a located tree. *)
Fixpoint lnode_at (t : LTree) (path : list nat) : option LTree :=
  match path with
  | [] => Some t
  | i :: path' => lkids t !! i ≫= λ k, lnode_at k path'
  end.

(** ** Sample inputs *)

(** A [Date.parse] for the examples: the ISO strings below, with the time
    values ECMAScript gives them, and no other string. *)
Definition sample_parse (s : string) : option Z :=
  if String.eqb s "1970-01-01T00:00:00.000Z" then Some 0%Z
  else if String.eqb s "1970-01-01T00:00:00.002Z" then Some 2%Z
  else if String.eqb s "1970-01-01T00:00:00.005Z" then Some 5%Z
  else if String.eqb s "1970-01-01T00:00:00.008Z" then Some 8%Z
  else if String.eqb s "1970-01-01T00:00:00.010Z" then Some 10%Z
  else if String.eqb s "1970-01-01T00:00:00.015Z" then Some 15%Z
  else if String.eqb s "1969-12-31T23:59:59.000Z" then Some (-1000)%Z
  else None.

Definition frame (nm : string) : StackJSONRaw :=
  {| method := {| obj := {| cls := {| cls_name := nm |} |} |} |}.

Definition interval (s e : string) : PerfJSONRaw :=
  {| start_time := Some s; end_time := Some e |}.

Definition call_of (st : list string) (p : PerfJSONRaw) : CallJSONRaw :=
  {| stack := frame <$> st; perf := p; args := "{}"; rets := "null" |}.

(** The overall timing of the sample records, [0, 15]. *)
Definition run_perf : PerfJSONRaw :=
  interval "1970-01-01T00:00:00.000Z" "1970-01-01T00:00:00.015Z".

(** The first scenario of the specification: [retriever] over [0, 10] and
    [get_context] under it over [2, 8]. *)
Definition retriever_call : CallJSONRaw :=
  call_of ["retriever"]
    (interval "1970-01-01T00:00:00.000Z" "1970-01-01T00:00:00.010Z").

Definition nested_call : CallJSONRaw :=
  call_of ["retriever"; "get_context"]
    (interval "1970-01-01T00:00:00.002Z" "1970-01-01T00:00:00.008Z").

Definition nested_store : heap :=
  [ OCall retriever_call;
    OCall nested_call;
    ORecord {| record_perf := run_perf; calls := [0; 1] |} ].

(** The second scenario: two calls of [synthesizer], over [0, 5] and over
    [10, 15]. *)
Definition early_call : CallJSONRaw :=
  call_of ["synthesizer"]
    (interval "1970-01-01T00:00:00.000Z" "1970-01-01T00:00:00.005Z").

Definition late_call : CallJSONRaw :=
  call_of ["synthesizer"]
    (interval "1970-01-01T00:00:00.010Z" "1970-01-01T00:00:00.015Z").

(** A record with no calls. *)
Definition no_calls_store : heap :=
  [ ORecord {| record_perf := run_perf; calls := [] |} ].

(** A record whose only call has an empty stack. *)
Definition stackless_call : CallJSONRaw :=
  call_of []
    (interval "1970-01-01T00:00:00.000Z" "1970-01-01T00:00:00.010Z").

Definition empty_stack_store : heap :=
  [ OCall stackless_call;
    ORecord {| record_perf := run_perf; calls := [0] |} ].

(** A call of [retriever] with no [start_time]. *)
Definition untimed_call : CallJSONRaw :=
  call_of ["retriever"]
    {| start_time := None; end_time := Some "1970-01-01T00:00:00.010Z" |}.

(** A node for [retriever] that no call has closed yet. *)
Definition open_retriever : StackTreeNode :=
  {| children := Some []; name := "retriever"; startTime := None;
     endTime := None; raw := None |}.

(** A call one second before the epoch, and a tree whose root has the open
    [retriever] node as its only child. *)
Definition before_epoch_call : CallJSONRaw :=
  call_of ["retriever"]
    (interval "1969-12-31T23:59:59.000Z" "1970-01-01T00:00:00.000Z").

Definition before_epoch_store : heap :=
  [ OCall before_epoch_call;
    ONode {| children := Some [2]; name := "App";
             startTime := Some (Some (-1000)%Z); endTime := Some (Some 15%Z);
             raw := None |};
    ONode open_retriever ].

(** The same tree, and the call [get_context] over [2, 8] under
    [retriever]. *)
Definition open_store : heap :=
  [ OCall nested_call;
    ONode {| children := Some [2]; name := "App";
             startTime := Some (Some 0%Z); endTime := Some (Some 15%Z);
             raw := None |};
    ONode open_retriever ].

Definition open_tree : StackTree :=
  Tree (Some [Tree (Some []) "retriever" None None None]) "App"
       (Some (Some 0%Z)) (Some (Some 15%Z)) None.

(** The same tree, and a call of [llm] under [synthesizer], which the tree
    has no node for. *)
Definition deep_call : CallJSONRaw :=
  call_of ["synthesizer"; "llm"]
    (interval "1970-01-01T00:00:00.002Z" "1970-01-01T00:00:00.008Z").

Definition deep_store : heap :=
  [ OCall deep_call;
    ONode {| children := Some [2]; name := "App";
             startTime := Some (Some 0%Z); endTime := Some (Some 15%Z);
             raw := None |};
    ONode open_retriever ].

(** The same tree, and the call of [retriever] with no [start_time]. *)
Definition untimed_open_store : heap :=
  [ OCall untimed_call;
    ONode {| children := Some [2]; name := "App";
             startTime := Some (Some 0%Z); endTime := Some (Some 15%Z);
             raw := None |};
    ONode open_retriever ].

(** The same tree, and the call of [retriever] over [0, 10], which closes
    the open node. *)
Definition closing_store : heap :=
  [ OCall retriever_call;
    ONode {| children := Some [2]; name := "App";
             startTime := Some (Some 0%Z); endTime := Some (Some 15%Z);
             raw := None |};
    ONode open_retriever ].

(** A tree whose root has three children named [retriever] (over [10, 15],
    over [0, 10], and one that no call has closed), and the call
    [get_context] over [2, 8] under [retriever]. *)
Definition siblings_store : heap :=
  [ OCall nested_call;
    ONode {| children := Some [2; 3; 4]; name := "App";
             startTime := Some (Some 0%Z); endTime := Some (Some 15%Z);
             raw := None |};
    ONode {| children := None; name := "retriever";
             startTime := Some (Some 10%Z); endTime := Some (Some 15%Z);
             raw := None |};
    ONode {| children := None; name := "retriever";
             startTime := Some (Some 0%Z); endTime := Some (Some 10%Z);
             raw := None |};
    ONode open_retriever ].

Definition siblings_tree : StackTree :=
  Tree (Some [Tree None "retriever" (Some (Some 10%Z)) (Some (Some 15%Z)) None;
              Tree None "retriever" (Some (Some 0%Z)) (Some (Some 10%Z)) None;
              Tree (Some []) "retriever" None None None])
       "App" (Some (Some 0%Z)) (Some (Some 15%Z)) None.

(** A record of two calls of [retriever]: one over [0, 10], then the one
    with no [start_time]. *)
Definition untimed_pair_store : heap :=
  [ OCall retriever_call;
    OCall untimed_call;
    ORecord {| record_perf := run_perf; calls := [0; 1] |} ].

(** ** utils.ts *)

Section WithDateParse.

(** The time value of a date string, [NaN] ([None]) when it does not parse:
    what the host's [Date.parse] answers. *)
Variable Date_parse : string -> option Z.

(** [new Date(v)] for a value that is a string or [undefined]. *)
Definition new_Date (v : option string) : Date :=
  match v with
  | Some s => Date_parse s
  | None => None
  end.

(** [v ? new Date(v) : undefined]. *)
Definition date_if_truthy (v : option string) : option Date :=
  match v with
  | Some s => if truthy s then Some (new_Date (Some s)) else None
  | None => None
  end.

(** [getStartAndEndTimes]: the pair [(startTime, endTime)]; [perf?.] reads
    through an [undefined] argument. *)
Definition getStartAndEndTimes (p : option PerfJSONRaw)
  : option Date * option Date :=
  (date_if_truthy (p ≫= start_time), date_if_truthy (p ≫= end_time)).

(** The callback of the search for a matching child, on the fields of the
    node it reads: [nm], [s] and [e] are [node.name], [node.startTime] and
    [node.endTime]. *)
Definition matches (stackCell : option StackJSONRaw) (call : CallJSONRaw)
    (nm : string) (s e : option Date) : result bool :=
  let! cellName := getNameFromCell stackCell in
  Done (String.eqb nm cellName
        && number_le (nullish s (Num 0))
                     (valueOf (new_Date (start_time (perf call))))
        && number_ge (nullish e Infinity)
                     (valueOf (new_Date (end_time (perf call))))).

(** *** Over the store *)

Definition matchesNode (stackCell : option StackJSONRaw) (call : CallJSONRaw)
    (node : loc) : M bool :=
  n <- getNode node ;;
  lift (matches stackCell call (name n) (startTime n) (endTime n)).

(** [addCallToTree]; [call] is the reference of the call and [c] the object
    it refers to. The recursion of the source is on [index + 1], bounded by
    the length of the stack, which the fuel stands for. *)
Fixpoint addCallToTree_fuel (fuel : nat) (tree call : loc)
    (stack : list StackJSONRaw) (index : nat) : M unit :=
  match fuel with
  | O => throw OutOfFuel
  | S fuel' =>
      c <- getCall call ;;
      let stackCell := stack !! index in
      t <- getNode tree ;;
      (if children t is None
       then setNode tree {| children := Some []; name := name t;
                            startTime := startTime t; endTime := endTime t;
                            raw := raw t |}
       else ret tt) ;;;
      t <- getNode tree ;;
      matchingNode <-
        find (matchesNode stackCell c) (default [] (children t)) ;;
      if (Z.of_nat index =? Z.of_nat (length stack) - 1)%Z then
        let '(startTime', endTime') := getStartAndEndTimes (Some (perf c)) in
        match matchingNode with
        | Some m =>
            n <- getNode m ;;
            setNode m {| children := children n; name := name n;
                         startTime := startTime'; endTime := endTime';
                         raw := Some call |}
        | None =>
            cellName <- lift (getNameFromCell stackCell) ;;
            node <- newNode {| children := None; name := cellName;
                               startTime := startTime'; endTime := endTime';
                               raw := Some call |} ;;
            push tree node
        end
      else
        matchingNode' <-
          match matchingNode with
          | Some m => ret m
          | None =>
              cellName <- lift (getNameFromCell stackCell) ;;
              node <- newNode {| children := Some []; name := cellName;
                                 startTime := None; endTime := None;
                                 raw := None |} ;;
              push tree node ;;;
              ret node
          end ;;
        addCallToTree_fuel fuel' matchingNode' call stack (index + 1)
  end.

Definition addCallToTree (tree call : loc) (stack : list StackJSONRaw)
    (index : nat) : M unit :=
  addCallToTree_fuel (S (length stack - index)) tree call stack index.

(** The loop [for (const call of recordJSON.calls)]. *)
Fixpoint for_calls (tree : loc) (cs : list loc) : M unit :=
  match cs with
  | [] => ret tt
  | call :: cs' =>
      c <- getCall call ;;
      addCallToTree tree call (stack c) 0 ;;;
      for_calls tree cs'
  end.

(** [createTreeFromCalls]: the reference to the root of the tree. *)
Definition createTreeFromCalls (recordJSON : loc) : M loc :=
  r <- getRecord recordJSON ;;
  tree <- newNode {| children := Some []; name := "App";
                     startTime := Some (new_Date (start_time (record_perf r)));
                     endTime := Some (new_Date (end_time (record_perf r)));
                     raw := None |} ;;
  for_calls tree (calls r) ;;;
  ret tree.

(** *** On the immutable tree *)

Definition matchesTree (stackCell : option StackJSONRaw) (call : CallJSONRaw)
    (node : StackTree) : result bool :=
  matches stackCell call (t_name node) (t_startTime node) (t_endTime node).

(** [addCallToTree] as a function from the tree before to the tree after;
    [call] is the reference the node keeps in [raw], [c] the call. An
    assignment to a child becomes the replacement of that child in the list of
    its parent. *)
Fixpoint addCallToTree_pure_fuel (fuel : nat) (tree : StackTree) (call : loc)
    (c : CallJSONRaw) (stack : list StackJSONRaw) (index : nat)
  : result StackTree :=
  match fuel with
  | O => Raise OutOfFuel
  | S fuel' =>
      let stackCell := stack !! index in
      let cs := kids tree in
      let! matchingNode := find_pure (matchesTree stackCell c) cs in
      if (Z.of_nat index =? Z.of_nat (length stack) - 1)%Z then
        let '(startTime', endTime') := getStartAndEndTimes (Some (perf c)) in
        match matchingNode with
        | Some (i, m) =>
            let m' := Tree (t_children m) (t_name m) startTime' endTime'
                           (Some call) in
            Done (Tree (Some (<[i := m']> cs)) (t_name tree)
                       (t_startTime tree) (t_endTime tree) (t_raw tree))
        | None =>
            let! cellName := getNameFromCell stackCell in
            let node := Tree None cellName startTime' endTime' (Some call) in
            Done (Tree (Some (cs ++ [node])) (t_name tree)
                       (t_startTime tree) (t_endTime tree) (t_raw tree))
        end
      else
        match matchingNode with
        | Some (i, m) =>
            let! m' := addCallToTree_pure_fuel fuel' m call c stack
                                               (index + 1) in
            Done (Tree (Some (<[i := m']> cs)) (t_name tree)
                       (t_startTime tree) (t_endTime tree) (t_raw tree))
        | None =>
            let! cellName := getNameFromCell stackCell in
            let node := Tree (Some []) cellName None None None in
            let! node' := addCallToTree_pure_fuel fuel' node call c stack
                                                  (index + 1) in
            Done (Tree (Some (cs ++ [node'])) (t_name tree)
                       (t_startTime tree) (t_endTime tree) (t_raw tree))
        end
  end.

Definition addCallToTree_pure (tree : StackTree) (call : loc)
    (c : CallJSONRaw) (stack : list StackJSONRaw) (index : nat)
  : result StackTree :=
  addCallToTree_pure_fuel (S (length stack - index)) tree call c stack index.

Fixpoint for_calls_pure (tree : StackTree) (cs : list (loc * CallJSONRaw))
  : result StackTree :=
  match cs with
  | [] => Done tree
  | (call, c) :: cs' =>
      let! tree' := addCallToTree_pure tree call c (stack c) 0 in
      for_calls_pure tree' cs'
  end.

(** [createTreeFromCalls] on the overall timing of the record and its calls,
    each with its reference. *)
Definition createTreeFromCalls_pure (p : PerfJSONRaw)
    (cs : list (loc * CallJSONRaw)) : result StackTree :=
  for_calls_pure
    (Tree (Some []) "App" (Some (new_Date (start_time p)))
          (Some (new_Date (end_time p))) None)
    cs.

(** *** One insertion, as a relation *)

(** The callback of the search at a stack cell that is there. *)
Definition matches_b (cell : StackJSONRaw) (call : CallJSONRaw)
    (nm : string) (s e : option Date) : bool :=
  String.eqb nm (cellName cell)
  && number_le (nullish s (Num 0))
               (valueOf (new_Date (start_time (perf call))))
  && number_ge (nullish e Infinity)
               (valueOf (new_Date (end_time (perf call)))).

Definition matchesTree_b (cell : StackJSONRaw) (call : CallJSONRaw)
    (node : StackTree) : bool :=
  matches_b cell call (t_name node) (t_startTime node) (t_endTime node).

(** The node a call closes: its timing and [raw] are the call's. *)
Definition closed (m : StackTree) (call : loc) (c : CallJSONRaw) : StackTree :=
  Tree (t_children m) (t_name m)
       (getStartAndEndTimes (Some (perf c))).1
       (getStartAndEndTimes (Some (perf c))).2 (Some call).

(** The new node of the last stack cell, and the new node of a cell above. *)
Definition leaf (cell : StackJSONRaw) (call : loc) (c : CallJSONRaw)
  : StackTree :=
  Tree None (cellName cell)
       (getStartAndEndTimes (Some (perf c))).1
       (getStartAndEndTimes (Some (perf c))).2 (Some call).

Definition placeholder (cell : StackJSONRaw) : StackTree :=
  Tree (Some []) (cellName cell) None None None.

(** [inserted call c stack index t t']: [addCallToTree] at [index] takes the
    tree [t] to [t']. One constructor for each way through the function. *)
Inductive inserted (call : loc) (c : CallJSONRaw) (stack : list StackJSONRaw)
  : nat → StackTree → StackTree → Prop :=
  | inserted_close index cell t i m :
      S index = length stack →
      stack !! index = Some cell →
      list_find (matchesTree_b cell c) (kids t) = Some (i, m) →
      inserted call c stack index t
        (with_children t (<[i := closed m call c]> (kids t)))
  | inserted_leaf index cell t :
      S index = length stack →
      stack !! index = Some cell →
      list_find (matchesTree_b cell c) (kids t) = None →
      inserted call c stack index t
        (with_children t (kids t ++ [leaf cell call c]))
  | inserted_descend index cell t i m m' :
      S index < length stack →
      stack !! index = Some cell →
      list_find (matchesTree_b cell c) (kids t) = Some (i, m) →
      inserted call c stack (S index) m m' →
      inserted call c stack index t (with_children t (<[i := m']> (kids t)))
  | inserted_placeholder index cell t node' :
      S index < length stack →
      stack !! index = Some cell →
      list_find (matchesTree_b cell c) (kids t) = None →
      inserted call c stack (S index) (placeholder cell) node' →
      inserted call c stack index t (with_children t (kids t ++ [node'])).

(** What holds of a node at depth [depth] of the tree of the calls [pcs]:
    its [children], when there, are not empty; its [raw], when there, is one
    of the calls, whose stack is as long as the node is deep and whose timing
    is the timing of the node. *)
Definition node_ok (pcs : list (loc * CallJSONRaw)) (depth : nat)
    (n : StackTree) : Prop :=
  t_children n ≠ Some []
  ∧ ∀ call, t_raw n = Some call →
      ∃ c, (call, c) ∈ pcs ∧ length (stack c) = depth
           ∧ (t_startTime n, t_endTime n)
             = getStartAndEndTimes (Some (perf c)).

(** *** The search, in the words of the specification *)

(** [a <= b] and [a >= b] on dates. *)
Definition date_le (a b : Date) : bool := number_le (valueOf a) (valueOf b).
Definition date_ge (a b : Date) : bool := number_ge (valueOf a) (valueOf b).

(** The containment predicate of the specification, for a frame named
    [fName] and a call over [invStart, invEnd], on a child whose name,
    [startTime] and [endTime] are [nm], [s] and [e]: the names are equal, and
    [startTime] is absent or [startTime <= invStart], and [endTime] is absent
    or [endTime >= invEnd]. *)
Definition contains_spec (fName : string) (invStart invEnd : Date)
    (nm : string) (s e : option Date) : bool :=
  bool_decide (nm = fName)
  && (if s is Some d then date_le d invStart else true)
  && (if e is Some d then date_ge d invEnd else true).

(** The predicate of the specification on a child [node] of the tree, for
    the stack cell [cell] of the call [c]. *)
Definition contained (cell : StackJSONRaw) (c : CallJSONRaw)
    (node : StackTree) : bool :=
  contains_spec (cellName cell) (new_Date (start_time (perf c)))
    (new_Date (end_time (perf c)))
    (t_name node) (t_startTime node) (t_endTime node).

(** The first of the children [ks], in their order, that satisfies the
    predicate of the specification, with its index. *)
Definition first_contained (cell : StackJSONRaw) (c : CallJSONRaw)
    (ks : list StackTree) : option (nat * StackTree) :=
  list_find (contained cell c) ks.

(** *** The branch of a call that matches no child *)

(** The new branch for the cell [cell] and the cells [rest] after it: a node
    with no timing for each cell but the last, each the only child of the one
    before, and the closed node of the call for the last. *)
Fixpoint chain (call : loc) (c : CallJSONRaw) (cell : StackJSONRaw)
    (rest : list StackJSONRaw) : StackTree :=
  match rest with
  | [] => leaf cell call c
  | cell' :: rest' =>
      with_children (placeholder cell) [chain call c cell' rest']
  end.

(** The call [call] closes the node [n], which becomes [n']: the timing and
    the [raw] of [n'] are the call's, and the call ran within the interval
    of [n], read with the defaults of the search. *)
Definition rewritten_within (call : loc) (c : CallJSONRaw)
    (n n' : StackTree) : Prop :=
  (t_startTime n', t_endTime n') = getStartAndEndTimes (Some (perf c))
  ∧ t_raw n' = Some call
  ∧ ∃ sv ev,
      new_Date (start_time (perf c)) = Some sv
      ∧ new_Date (end_time (perf c)) = Some ev
      ∧ number_le (nullish (t_startTime n) (Num 0)) (Num sv) = true
      ∧ number_ge (nullish (t_endTime n) Infinity) (Num ev) = true.

(** The five conclusions of the simulation, from the four about the store
    and the one about the tree. *)
Ltac sim_conclude :=
  match goal with
  | |- stored ?h' ?t' ∧ NoDup _ ∧ erase _ = _ ∧ fresh_cells ?h ?t _
       ∧ frame_outside _ _ _ =>
      cut (stored h' t' ∧ NoDup (locs t') ∧ fresh_cells h t t'
           ∧ frame_outside (locs t) h h');
      [intros (? & ? & ? & ?); split_and!; [done|done| |done|done]|]
  end.

(** ** The search *)

Lemma find_pure_list_find {A} (p : A → result bool) (q : A → bool) l :
  (∀ x, p x = Done (q x)) →
  find_pure p l = Done (list_find q l).
Proof.
  intros Hp. induction l as [|x l IH]; simpl; [done|].
  rewrite Hp. simpl. unfold decide, Is_true_dec.
  destruct (q x); simpl; [done|].
  by rewrite IH.
Qed.

Lemma find_pure_raise {A} (p : A → result bool) e x l :
  (∀ x, p x = Raise e) → find_pure p (x :: l) = Raise e.
Proof. intros Hp. simpl. by rewrite Hp. Qed.

Lemma matchesTree_Some cell c node :
  matchesTree (Some cell) c node = Done (matchesTree_b cell c node).
Proof. done. Qed.

Lemma matchesTree_None c node : matchesTree None c node = Raise TypeError.
Proof. done. Qed.

(** ** The function and the relation agree *)

Lemma index_last_iff (stack : list StackJSONRaw) (index : nat) :
  (Z.of_nat index =? Z.of_nat (length stack) - 1)%Z = true
  ↔ S index = length stack.
Proof. rewrite Z.eqb_eq. lia. Qed.

Lemma addCallToTree_pure_fuel_inserted fuel t call c stack index t' :
  addCallToTree_pure_fuel fuel t call c stack index = Done t' →
  inserted call c stack index t t'.
Proof.
  revert t index t'. induction fuel as [|fuel IH]; intros t index t'; [done|].
  simpl. destruct (stack !! index) as [cell|] eqn:Hcell.
  - rewrite (find_pure_list_find _ (matchesTree_b cell c)) by done. simpl.
    apply lookup_lt_Some in Hcell as Hlt.
    destruct (Z.eqb_spec (Z.of_nat index) (Z.of_nat (length stack) - 1)) as [Hl|Hl].
    + assert (S index = length stack) by lia.
      destruct (list_find _ _) as [[i m]|] eqn:Hfind; simpl; intros [= <-].
      * by eapply inserted_close.
      * by eapply inserted_leaf.
    + assert (S index < length stack) by lia.
      destruct (list_find _ _) as [[i m]|] eqn:Hfind; simpl.
      * destruct (addCallToTree_pure_fuel fuel m _ _ _ _) as [m'|] eqn:Hrec;
          simpl; intros [= <-].
        eapply inserted_descend; eauto. apply IH.
        by rewrite <- Hrec, Nat.add_1_r.
      * destruct (addCallToTree_pure_fuel fuel _ _ _ _ _) as [m'|] eqn:Hrec;
          simpl; intros [= <-].
        eapply inserted_placeholder; eauto. apply IH.
        by rewrite <- Hrec, Nat.add_1_r.
  - destruct (kids t) as [|x l]; simpl.
    + destruct (Z.eqb_spec (Z.of_nat index) (Z.of_nat (length stack) - 1)) as [Hl|Hl].
      * apply lookup_ge_None in Hcell. lia.
      * done.
    + done.
Qed.

Lemma inserted_addCallToTree_pure_fuel call c stack index t t' fuel :
  inserted call c stack index t t' →
  length stack - index ≤ fuel →
  addCallToTree_pure_fuel fuel t call c stack index = Done t'.
Proof.
  intros Hins. revert fuel.
  induction Hins as [index cell t i m Hlast Hcell Hfind
                    |index cell t Hlast Hcell Hfind
                    |index cell t i m m' Hlt Hcell Hfind Hins IH
                    |index cell t node' Hlt Hcell Hfind Hins IH];
    intros [|fuel] Hfuel; try lia; simpl; rewrite Hcell;
    rewrite (find_pure_list_find _ (matchesTree_b cell c)) by done;
    rewrite Hfind; simpl.
  - by rewrite (proj2 (index_last_iff stack index) Hlast).
  - by rewrite (proj2 (index_last_iff stack index) Hlast).
  - destruct (Z.eqb_spec (Z.of_nat index) (Z.of_nat (length stack) - 1));
      [lia|].
    rewrite Nat.add_1_r, IH by lia. done.
  - destruct (Z.eqb_spec (Z.of_nat index) (Z.of_nat (length stack) - 1));
      [lia|].
    rewrite Nat.add_1_r, IH by lia. done.
Qed.

(** Within the stack an insertion always has a result. *)
Lemma inserted_total call c stack index t :
  index < length stack → ∃ t', inserted call c stack index t t'.
Proof.
  intros Hlt. remember (length stack - index) as k eqn:Hk.
  revert index t Hlt Hk. induction k as [|k IH]; intros index t Hlt Hk; [lia|].
  destruct (lookup_lt_is_Some_2 stack index Hlt) as [cell Hcell].
  destruct (decide (S index = length stack)) as [Hlast|Hlast].
  - destruct (list_find (matchesTree_b cell c) (kids t)) as [[i m]|] eqn:Hfind.
    + eexists. by eapply inserted_close.
    + eexists. by eapply inserted_leaf.
  - destruct (list_find (matchesTree_b cell c) (kids t)) as [[i m]|] eqn:Hfind.
    + destruct (IH (S index) m) as [m' Hm']; [lia..|].
      eexists. eapply inserted_descend; eauto. lia.
    + destruct (IH (S index) (placeholder cell)) as [m' Hm']; [lia..|].
      eexists. eapply inserted_placeholder; eauto. lia.
Qed.

Lemma inserted_functional call c stack index t t1 t2 :
  inserted call c stack index t t1 →
  inserted call c stack index t t2 →
  t1 = t2.
Proof.
  intros H1 H2.
  apply (inserted_addCallToTree_pure_fuel _ _ _ _ _ _ (length stack - index))
    in H1, H2; [|done..].
  congruence.
Qed.

Lemma inserted_index_lt call c stack index t t' :
  inserted call c stack index t t' → index < length stack.
Proof. destruct 1; lia. Qed.

(** [addCallToTree] returns exactly when [index] is within the stack;
    otherwise the read of the missing cell throws. *)
Lemma addCallToTree_pure_inserted t call c stack index t' :
  addCallToTree_pure t call c stack index = Done t'
  ↔ inserted call c stack index t t'.
Proof.
  split.
  - apply addCallToTree_pure_fuel_inserted.
  - intros. apply inserted_addCallToTree_pure_fuel; [done|lia].
Qed.

Lemma addCallToTree_pure_out_of_range t call c stack index :
  length stack ≤ index →
  addCallToTree_pure t call c stack index = Raise TypeError.
Proof.
  intros Hge. unfold addCallToTree_pure. simpl.
  rewrite (proj2 (lookup_ge_None stack index)) by done.
  destruct (kids t) as [|x l]; simpl; [|done].
  destruct (Z.eqb_spec (Z.of_nat index) (Z.of_nat (length stack) - 1)); [lia|done].
Qed.

(** ** What an insertion keeps *)

Lemma kids_with_children t cs : kids (with_children t cs) = cs.
Proof. done. Qed.

Lemma node_at_cons t i path :
  node_at t (i :: path) = kids t !! i ≫= λ k, node_at k path.
Proof. done. Qed.

Lemma all_nodes_unfold P d t :
  all_nodes P d t ↔ P d t ∧ all_below P d t.
Proof.
  split.
  - intros Hall. split.
    + specialize (Hall [] t eq_refl). by rewrite Nat.add_0_r in Hall.
    + intros i k Hk path n Hn.
      specialize (Hall (i :: path) n). rewrite node_at_cons, Hk in Hall.
      replace (S d + length path) with (d + length (i :: path))
        by (simpl; lia). auto.
  - intros [Hroot Hbelow] [|i path] n Hn.
    + simplify_eq/=. by rewrite Nat.add_0_r.
    + rewrite node_at_cons in Hn.
      destruct (kids t !! i) as [k|] eqn:Hk; [|done]. simpl in Hn.
      replace (d + length (i :: path)) with (S d + length path)
        by (simpl; lia).
      by eapply Hbelow.
Qed.

Lemma all_below_insert P d t i k :
  all_below P d t → all_nodes P (S d) k →
  all_below P d (with_children t (<[i := k]> (kids t))).
Proof.
  intros Hbelow Hk j x. rewrite kids_with_children.
  intros [(-> & -> & _)|[_ Hj]]%list_lookup_insert_Some; [done|].
  by eapply Hbelow.
Qed.

Lemma all_below_app P d t k :
  all_below P d t → all_nodes P (S d) k →
  all_below P d (with_children t (kids t ++ [k])).
Proof.
  intros Hbelow Hk j x. rewrite kids_with_children.
  intros [Hj|[_ Hj]]%lookup_app_Some; [by eapply Hbelow|].
  apply list_lookup_singleton_Some in Hj as [_ <-]. done.
Qed.

(** The result of an insertion is the tree it starts from with other
    children, at least one. *)
Lemma inserted_shape call c stack index t t' :
  inserted call c stack index t t' →
  ∃ cs, cs ≠ [] ∧ t' = with_children t cs.
Proof.
  destruct 1 as [index cell t i m Hlast Hcell Hfind
                |index cell t Hlast Hcell Hfind
                |index cell t i m m' Hlt Hcell Hfind Hins
                |index cell t node' Hlt Hcell Hfind Hins];
    eexists; (split; [|done]).
  - apply list_find_Some in Hfind as (Hi & _).
    intros Hnil. apply (f_equal length) in Hnil.
    rewrite length_insert in Hnil. apply lookup_lt_Some in Hi.
    simpl in Hnil. lia.
  - by destruct (kids t).
  - apply list_find_Some in Hfind as (Hi & _).
    intros Hnil. apply (f_equal length) in Hnil.
    rewrite length_insert in Hnil. apply lookup_lt_Some in Hi.
    simpl in Hnil. lia.
  - by destruct (kids t).
Qed.

Lemma node_ok_with_children pcs d n cs :
  cs ≠ [] → node_ok pcs d n → node_ok pcs d (with_children n cs).
Proof. intros Hcs [_ Hraw]. split; [|done]. simpl. congruence. Qed.

(** An insertion of a call of [pcs] keeps [node_ok] below the node it
    starts from. *)
Lemma inserted_node_ok pcs call c index t t' :
  (call, c) ∈ pcs →
  inserted call c (stack c) index t t' →
  all_below (node_ok pcs) index t →
  all_below (node_ok pcs) index t'.
Proof.
  intros Hin Hins.
  induction Hins as [index cell t i m Hlast Hcell Hfind
                    |index cell t Hlast Hcell Hfind
                    |index cell t i m m' Hlt Hcell Hfind Hins IH
                    |index cell t node' Hlt Hcell Hfind Hins IH];
    intros Hbelow.
  - apply list_find_Some in Hfind as (Hi & _).
    apply all_below_insert; [done|].
    pose proof (Hbelow i m Hi) as [[Hkids _] Hm]%all_nodes_unfold.
    apply all_nodes_unfold. split; [|done].
    split; [done|]. simpl. intros ? [= <-]. exists c.
    by split_and!.
  - apply all_below_app; [done|]. apply all_nodes_unfold. split.
    + split; [done|]. simpl. intros ? [= <-]. exists c.
      by split_and!.
    + by intros j x.
  - apply list_find_Some in Hfind as (Hi & _).
    apply all_below_insert; [done|].
    pose proof (Hbelow i m Hi) as [Hm Hmb]%all_nodes_unfold.
    destruct (inserted_shape _ _ _ _ _ _ Hins) as (cs & Hcs & Heq).
    apply all_nodes_unfold. split; [|by apply IH].
    rewrite Heq. by apply node_ok_with_children.
  - apply all_below_app; [done|].
    destruct (inserted_shape _ _ _ _ _ _ Hins) as (cs & Hcs & Heq).
    apply all_nodes_unfold. split.
    + rewrite Heq. split; [simpl; congruence|done].
    + apply IH. by intros j x.
Qed.

Lemma same_fields_refl n : same_fields n n.
Proof. done. Qed.

Lemma embeds_refl t : embeds t t.
Proof. intros path n Hn. eauto. Qed.

Lemma embeds_trans t1 t2 t3 : embeds t1 t2 → embeds t2 t3 → embeds t1 t3.
Proof.
  intros H12 H23 path n Hn.
  destruct (H12 path n Hn) as (n2 & Hn2 & Hname2).
  destruct (H23 path n2 Hn2) as (n3 & Hn3 & Hname3).
  exists n3. split; [done|congruence].
Qed.

(** An insertion keeps every node where it is, with its name, and changes
    the timing and the [raw] of the node at one place [q] at most. *)
Lemma inserted_monotone call c stack index t t' :
  inserted call c stack index t t' →
  ∃ q, ∀ path n, node_at t path = Some n →
    ∃ n', node_at t' path = Some n' ∧ t_name n' = t_name n
          ∧ (path ≠ q → same_fields n n').
Proof.
  induction 1 as [index cell t i m Hlast Hcell Hfind
                 |index cell t Hlast Hcell Hfind
                 |index cell t i m m' Hlt Hcell Hfind Hins IH
                 |index cell t node' Hlt Hcell Hfind Hins IH].
  - apply list_find_Some in Hfind as (Hi & _).
    exists [i]. intros [|j path] n Hn.
    { simplify_eq/=. eexists. by split_and!. }
    rewrite node_at_cons in Hn. rewrite node_at_cons, kids_with_children.
    destruct (kids t !! j) as [k|] eqn:Hj; [|done]. simpl in Hn.
    destruct (decide (j = i)) as [->|Hne].
    + rewrite list_lookup_insert_eq by by eapply lookup_lt_Some.
      simplify_eq/=. destruct path as [|r path].
      * simplify_eq/=. eexists. by split_and!.
      * exists n. by split_and!.
    + rewrite list_lookup_insert_ne, Hj by done. exists n. by split_and!.
  - exists [length (kids t)]. intros [|j path] n Hn.
    { simplify_eq/=. eexists. by split_and!. }
    rewrite node_at_cons in Hn. rewrite node_at_cons, kids_with_children.
    destruct (kids t !! j) as [k|] eqn:Hj; [|done]. simpl in Hn.
    rewrite (lookup_app_l_Some _ _ _ _ Hj). exists n. by split_and!.
  - apply list_find_Some in Hfind as (Hi & _).
    destruct IH as [q IH].
    exists (i :: q). intros [|j path] n Hn.
    { simplify_eq/=. eexists. by split_and!. }
    rewrite node_at_cons in Hn. rewrite node_at_cons, kids_with_children.
    destruct (kids t !! j) as [k|] eqn:Hj; [|done]. simpl in Hn.
    destruct (decide (j = i)) as [->|Hne].
    + rewrite list_lookup_insert_eq by by eapply lookup_lt_Some.
      simplify_eq/=. destruct (IH path n Hn) as (n' & Hn' & Hname & Hsame).
      exists n'. split_and!; [done..|]. intros Hq. apply Hsame. congruence.
    + rewrite list_lookup_insert_ne, Hj by done. exists n. by split_and!.
  - exists [length (kids t)]. intros [|j path] n Hn.
    { simplify_eq/=. eexists. by split_and!. }
    rewrite node_at_cons in Hn. rewrite node_at_cons, kids_with_children.
    destruct (kids t !! j) as [k|] eqn:Hj; [|done]. simpl in Hn.
    rewrite (lookup_app_l_Some _ _ _ _ Hj). exists n. by split_and!.
Qed.

Lemma inserted_embeds call c stack index t t' :
  inserted call c stack index t t' → embeds t t'.
Proof.
  intros [q Hq]%inserted_monotone path n Hn.
  destruct (Hq path n Hn) as (n' & ? & ? & _). eauto.
Qed.


(** *** The new branch, as an insertion *)

Lemma inserted_chain call c stack rest :
  ∀ index cell t,
    stack !! index = Some cell →
    drop (S index) stack = rest →
    list_find (matchesTree_b cell c) (kids t) = None →
    inserted call c stack index t
      (with_children t (kids t ++ [chain call c cell rest])).
Proof.
  induction rest as [|cell' rest IH]; intros index cell t Hcell Hdrop Hfind.
  - apply lookup_lt_Some in Hcell as Hlt.
    apply (f_equal length) in Hdrop. rewrite length_drop in Hdrop.
    simpl in Hdrop. apply (inserted_leaf call c stack index cell);
      [lia|done..].
  - assert (Hcell' : stack !! S index = Some cell').
    { pose proof (lookup_drop stack (S index) 0) as Hl.
      rewrite Hdrop, Nat.add_0_r in Hl. done. }
    assert (Hdrop' : drop (S (S index)) stack = rest).
    { replace (S (S index)) with (S index + 1) by lia.
      by rewrite <- drop_drop, Hdrop. }
    apply lookup_lt_Some in Hcell' as Hlt.
    apply (inserted_placeholder call c stack index cell); [lia|done..|].
    apply (IH (S index) cell' (placeholder cell)); done.
Qed.

(** *** How an insertion rewrites timing *)

Lemma matches_b_within cell c nm s e :
  matches_b cell c nm s e = true →
  ∃ sv ev,
    new_Date (start_time (perf c)) = Some sv
    ∧ new_Date (end_time (perf c)) = Some ev
    ∧ number_le (nullish s (Num 0)) (Num sv) = true
    ∧ number_ge (nullish e Infinity) (Num ev) = true.
Proof.
  unfold matches_b. intros [[_ Hs]%andb_prop He]%andb_prop.
  destruct (new_Date (start_time (perf c))) as [sv|];
    [|by destruct (nullish s (Num 0))].
  destruct (new_Date (end_time (perf c))) as [ev|]; [|done].
  by exists sv, ev.
Qed.

Lemma same_fields_with_children t cs : same_fields t (with_children t cs).
Proof. by destruct t. Qed.

Lemma inserted_timing call c stack index t t' :
  inserted call c stack index t t' →
  ∀ path n n', node_at t path = Some n → node_at t' path = Some n' →
    same_fields n n' ∨ rewritten_within call c n n'.
Proof.
  induction 1 as [index cell t i m Hlast Hcell Hfind
                 |index cell t Hlast Hcell Hfind
                 |index cell t i m m' Hlt Hcell Hfind Hins IH
                 |index cell t node' Hlt Hcell Hfind Hins IH];
    intros [|j path] n n' Hn Hn';
    try (simplify_eq/=; left; apply same_fields_with_children);
    rewrite node_at_cons in Hn;
    rewrite node_at_cons, kids_with_children in Hn'.
  - apply list_find_Some in Hfind as (Hi & Hm & _).
    destruct (decide (j = i)) as [->|Hji].
    + rewrite list_lookup_insert_eq in Hn' by by eapply lookup_lt_Some.
      rewrite Hi in Hn. destruct path as [|r path].
      * simplify_eq/=. right. split_and!; [done..|].
        apply Is_true_true in Hm.
        by apply (matches_b_within cell c (t_name n)).
      * left. simpl in Hn, Hn'.
        change (kids (closed m call c)) with (kids m) in Hn'.
        rewrite Hn in Hn'. by simplify_eq.
    + rewrite list_lookup_insert_ne in Hn' by done. left.
      destruct (kids t !! j); by simplify_eq/=.
  - destruct (kids t !! j) as [k|] eqn:Hj; [|done].
    rewrite (lookup_app_l_Some _ _ _ _ Hj) in Hn'. left. by simplify_eq/=.
  - apply list_find_Some in Hfind as (Hi & _).
    destruct (decide (j = i)) as [->|Hji].
    + rewrite list_lookup_insert_eq in Hn' by by eapply lookup_lt_Some.
      rewrite Hi in Hn. by apply (IH path).
    + rewrite list_lookup_insert_ne in Hn' by done. left.
      destruct (kids t !! j); by simplify_eq/=.
  - destruct (kids t !! j) as [k|] eqn:Hj; [|done].
    rewrite (lookup_app_l_Some _ _ _ _ Hj) in Hn'. left. by simplify_eq/=.
Qed.

(** *** The nodes of each depth *)

Lemma length_bind_insert {A B} (f : A → list B) l i x y b :
  l !! i = Some x →
  length (f y) ≤ length (f x) + b →
  length (<[i := y]> l ≫= f) ≤ length (l ≫= f) + b.
Proof.
  revert i. induction l as [|a l IH]; intros [|i] Hi Hle; simplify_eq/=.
  - rewrite !length_app. lia.
  - rewrite !length_app. specialize (IH i Hi Hle). simpl in IH. lia.
Qed.

Lemma level_with_children_S d t cs :
  level (S d) (with_children t cs) = cs ≫= level d.
Proof. done. Qed.

Lemma level_no_kids d t :
  kids t = [] → length (level d t) = if d is O then 1 else 0.
Proof. intros Hk. destruct d; simpl; [done|]. by rewrite Hk. Qed.

(** An insertion at [index] adds at most one node at each of the depths
    [1] to [length stack - index] below where it starts, and none deeper. *)
Lemma inserted_level call c stack index t t' :
  inserted call c stack index t t' →
  ∀ d, length (level d t') ≤ length (level d t)
                             + one_upto (length stack - index) d.
Proof.
  unfold one_upto.
  induction 1 as [index cell t i m Hlast Hcell Hfind
                 |index cell t Hlast Hcell Hfind
                 |index cell t i m m' Hlt Hcell Hfind Hins IH
                 |index cell t node' Hlt Hcell Hfind Hins IH];
    intros [|d]; try (simpl; lia); rewrite level_with_children_S;
    change (level (S d) t) with (kids t ≫= level d).
  - apply list_find_Some in Hfind as (Hi & _).
    eapply length_bind_insert; [done|]. destruct d; simpl; [lia|].
    change (kids (closed m call c)) with (kids m). lia.
  - rewrite bind_app, bind_singleton, length_app.
    rewrite (level_no_kids d (leaf _ _ _)) by done.
    destruct d; [|lia]. rewrite bool_decide_true by lia. lia.
  - apply list_find_Some in Hfind as (Hi & _).
    eapply length_bind_insert; [done|]. specialize (IH d).
    repeat case_bool_decide; lia.
  - rewrite bind_app, bind_singleton, length_app. specialize (IH d).
    rewrite (level_no_kids d (placeholder _)) in IH by done.
    destruct d; repeat case_bool_decide; lia.
Qed.

(** ** The loop over the calls, on trees *)

Lemma addCallToTree_pure_Done t call c t' :
  addCallToTree_pure t call c (stack c) 0 = Done t' →
  t_name t' = t_name t ∧ same_fields t t' ∧ is_Some (t_children t')
  ∧ embeds t t'
  ∧ ∀ pcs, (call, c) ∈ pcs →
      all_below (node_ok pcs) 0 t → all_below (node_ok pcs) 0 t'.
Proof.
  intros Hins. apply addCallToTree_pure_inserted in Hins.
  destruct (inserted_shape _ _ _ _ _ _ Hins) as (cs & _ & ->).
  split_and!; [done|done|by eexists|by eapply inserted_embeds|].
  intros pcs Hin. by apply (inserted_node_ok pcs call c).
Qed.

Lemma for_calls_pure_Done t pcs' t' :
  for_calls_pure t pcs' = Done t' →
  t_name t' = t_name t ∧ same_fields t t'
  ∧ (is_Some (t_children t) → is_Some (t_children t'))
  ∧ embeds t t'
  ∧ ∀ pcs, pcs' ⊆ pcs →
      all_below (node_ok pcs) 0 t → all_below (node_ok pcs) 0 t'.
Proof.
  revert t. induction pcs' as [|[call c] pcs' IH]; intros t Hrun.
  { simplify_eq/=. split_and!; auto using embeds_refl, same_fields_refl. }
  simpl in Hrun.
  destruct (addCallToTree_pure t call c (stack c) 0) as [t1|e] eqn:Hadd;
    [|done].
  apply addCallToTree_pure_Done in Hadd
    as (Hname1 & (Hs1 & He1 & Hr1) & Hch1 & Hemb1 & Hok1).
  apply IH in Hrun as (Hname & (Hs & He & Hr) & Hch & Hemb & Hok).
  split_and!; [congruence|split_and!; congruence|auto| |].
  - by eapply embeds_trans.
  - intros pcs Hsub Hbelow. apply Hok.
    + intros x Hx. apply Hsub. by right.
    + apply Hok1; [|done]. apply Hsub. left.
Qed.

Lemma for_calls_pure_app t pcs1 pcs2 :
  for_calls_pure t (pcs1 ++ pcs2)
  = rbind (for_calls_pure t pcs1) (λ t1, for_calls_pure t1 pcs2).
Proof.
  revert t. induction pcs1 as [|[call c] pcs1 IH]; intros t; [done|].
  simpl. destruct (addCallToTree_pure t call c (stack c) 0); [|done].
  apply IH.
Qed.

(** The loop returns when no call has an empty stack, and throws a
    [TypeError] when one has. *)
Lemma for_calls_pure_total t pcs :
  Forall (λ pc, stack pc.2 ≠ []) pcs → ∃ t', for_calls_pure t pcs = Done t'.
Proof.
  intros Hall. revert t.
  induction Hall as [|[call c] pcs Hc Hall IH]; intros t; [by eexists|].
  simpl in *.
  destruct (inserted_total call c (stack c) 0 t) as [t1 Ht1].
  { destruct (stack c); simpl; [done|lia]. }
  apply addCallToTree_pure_inserted in Ht1. rewrite Ht1. apply IH.
Qed.

Lemma for_calls_pure_raise t pcs :
  Exists (λ pc, stack pc.2 = []) pcs → for_calls_pure t pcs = Raise TypeError.
Proof.
  intros Hex. revert t.
  induction pcs as [|[call c] pcs IH]; intros t;
    [by apply Exists_nil in Hex|].
  simpl.
  destruct (decide (stack c = [])) as [Hnil|Hne].
  - rewrite addCallToTree_pure_out_of_range; [done|]. rewrite Hnil. simpl. lia.
  - apply Exists_cons in Hex as [Hex|Hex]; [done|].
    destruct (inserted_total call c (stack c) 0 t) as [t1 Ht1].
    { destruct (stack c); simpl; [done|lia]. }
    apply addCallToTree_pure_inserted in Ht1. rewrite Ht1. by apply IH.
Qed.

Lemma for_calls_pure_Raise t pcs e :
  for_calls_pure t pcs = Raise e → e = TypeError.
Proof.
  revert t. induction pcs as [|[call c] pcs IH]; intros t; [done|].
  simpl. destruct (addCallToTree_pure t call c (stack c) 0) as [t1|e1]
    eqn:Hadd; simpl; [apply IH|].
  intros [= <-]. destruct (stack c) as [|f st] eqn:Hst.
  - rewrite addCallToTree_pure_out_of_range in Hadd by (simpl; lia).
    congruence.
  - destruct (inserted_total call c (f :: st) 0 t) as [t1 Ht1];
      [simpl; lia|].
    apply addCallToTree_pure_inserted in Ht1. congruence.
Qed.


Lemma createTreeFromCalls_pure_Done p pcs t :
  createTreeFromCalls_pure p pcs = Done t →
  t_name t = "App"
  ∧ t_startTime t = Some (new_Date (start_time p))
  ∧ t_endTime t = Some (new_Date (end_time p))
  ∧ t_raw t = None
  ∧ is_Some (t_children t)
  ∧ all_below (node_ok pcs) 0 t.
Proof.
  intros (Hname & (Hs & He & Hr) & Hch & Hemb & Hok)%for_calls_pure_Done.
  split_and!; [done..|by apply Hch; eexists|].
  apply Hok; [done|]. by intros i k.
Qed.

Lemma createTreeFromCalls_pure_Raise p pcs e :
  createTreeFromCalls_pure p pcs = Raise e → e = TypeError.
Proof. apply for_calls_pure_Raise. Qed.

Lemma createTreeFromCalls_pure_prefix p pcs1 pcs2 t :
  createTreeFromCalls_pure p (pcs1 ++ pcs2) = Done t →
  ∃ t1, createTreeFromCalls_pure p pcs1 = Done t1 ∧ embeds t1 t.
Proof.
  unfold createTreeFromCalls_pure. rewrite for_calls_pure_app.
  destruct (for_calls_pure _ pcs1) as [t1|e]; [|done]. simpl.
  intros (_ & _ & _ & Hemb & _)%for_calls_pure_Done. eauto.
Qed.

(** ** Reading and writing the store *)

Lemma getNode_Ok h l n : h !! l = Some (ONode n) → getNode l h = Ok n h.
Proof. unfold getNode. by intros ->. Qed.

Lemma setNode_Ok h l n0 n :
  h !! l = Some (ONode n0) → setNode l n h = Ok tt (<[l := ONode n]> h).
Proof. unfold setNode. by intros ->. Qed.

Lemma getCall_Ok h l c : h !! l = Some (OCall c) → getCall l h = Ok c h.
Proof. unfold getCall. by intros ->. Qed.

Lemma bind_Ok {A B} (m : M A) (k : A → M B) h a h1 :
  m h = Ok a h1 → bind m k h = k a h1.
Proof. unfold bind. by intros ->. Qed.

Lemma bind_ret {A B} (a : A) (k : A → M B) h : bind (ret a) k h = k a h.
Proof. done. Qed.

Lemma bind_Throw {A B} (m : M A) (k : A → M B) h e h1 :
  m h = Throw e h1 → bind m k h = Throw e h1.
Proof. unfold bind. by intros ->. Qed.

Lemma bind_inv_Ok {A B} (m : M A) (k : A → M B) h b h2 :
  bind m k h = Ok b h2 → ∃ a h1, m h = Ok a h1 ∧ k a h1 = Ok b h2.
Proof. unfold bind. destruct (m h) as [a h1|e h1]; [eauto|done]. Qed.

(** ** Located trees *)

Lemma LTree_ind (P : LTree → Prop) :
  (∀ t, Forall P (lkids t) → P t) → ∀ t, P t.
Proof.
  intros IH. fix REC 1. intros [l cs nm s e r]. apply IH.
  destruct cs as [ts|]; simpl; [|constructor].
  induction ts as [|t ts IHts]; constructor; [apply REC|apply IHts].
Qed.

Lemma stored_inv h t :
  stored h t →
  h !! root_loc t = Some (ONode (cell_of t)) ∧ Forall (stored h) (lkids t).
Proof. by destruct 1. Qed.

Lemma kids_erase t : kids (erase t) = erase <$> lkids t.
Proof. by destruct t as [l [ts|] nm s e r]. Qed.

Lemma locs_unfold t : locs t = root_loc t :: mjoin (locs <$> lkids t).
Proof. by destruct t as [l [ts|] nm s e r]. Qed.

Lemma t_name_erase t : t_name (erase t) = lt_name t.
Proof. by destruct t. Qed.
Lemma t_startTime_erase t : t_startTime (erase t) = lt_startTime t.
Proof. by destruct t. Qed.
Lemma t_endTime_erase t : t_endTime (erase t) = lt_endTime t.
Proof. by destruct t. Qed.
Lemma t_raw_erase t : t_raw (erase t) = lt_raw t.
Proof. by destruct t. Qed.

Lemma elem_of_locs_kid t k l :
  k ∈ lkids t → l ∈ locs k → l ∈ locs t.
Proof.
  intros Hk Hl. rewrite locs_unfold. right.
  apply list_elem_of_join. exists (locs k). split; [done|].
  by apply list_elem_of_fmap_2.
Qed.

(** The cells of a stored tree are cells of the store. *)
Lemma stored_locs_lt h t l : stored h t → l ∈ locs t → l < length h.
Proof.
  revert l. induction t as [t IH] using LTree_ind. intros l Hst Hl.
  apply stored_inv in Hst as [Hroot Hkids].
  rewrite locs_unfold in Hl. apply elem_of_cons in Hl as [->|Hl].
  - by eapply lookup_lt_Some.
  - apply list_elem_of_join in Hl as (ls & Hl & Hls).
    apply list_elem_of_fmap in Hls as (k & -> & Hk).
    rewrite Forall_forall in IH, Hkids. eauto.
Qed.

(** A stored tree stays stored when its cells stay as they are. *)
Lemma stored_frame h h' t :
  stored h t → (∀ l, l ∈ locs t → h' !! l = h !! l) → stored h' t.
Proof.
  induction t as [t IH] using LTree_ind. intros Hst Hsame.
  apply stored_inv in Hst as [Hroot Hkids]. constructor.
  - rewrite Hsame; [done|]. rewrite locs_unfold. left.
  - rewrite Forall_forall in IH, Hkids. apply Forall_forall. intros k Hk.
    apply IH; [done|by apply Hkids|]. intros l Hl.
    apply Hsame. by eapply elem_of_locs_kid.
Qed.

Lemma stored_locs_node h t l :
  stored h t → l ∈ locs t → ∃ n, h !! l = Some (ONode n).
Proof.
  revert l. induction t as [t IH] using LTree_ind. intros l Hst Hl.
  apply stored_inv in Hst as [Hroot Hkids].
  rewrite locs_unfold in Hl. apply elem_of_cons in Hl as [->|Hl]; [eauto|].
  apply list_elem_of_join in Hl as (ls & Hl & Hls).
  apply list_elem_of_fmap in Hls as (k & -> & Hk).
  rewrite Forall_forall in IH, Hkids. eauto.
Qed.

Lemma frame_outside_refl fp h : frame_outside fp h h.
Proof. by split. Qed.

Lemma frame_outside_trans fp h1 h2 h3 :
  frame_outside fp h1 h2 → frame_outside fp h2 h3 → frame_outside fp h1 h3.
Proof.
  intros [Hl1 H1] [Hl2 H2]. split; [lia|].
  intros l Hl Hfp. rewrite H2, H1; [done..|lia|done].
Qed.

Lemma frame_outside_mono fp fp' h h' :
  (∀ l, l ∈ fp → l ∈ fp') → frame_outside fp h h' → frame_outside fp' h h'.
Proof. intros Hsub [Hl H]. split; [done|]. intros l ? ?. apply H; auto. Qed.

(** ** Lists of disjoint lists *)

Lemma NoDup_join_lookup_disjoint {A} (ls : list (list A)) i j a b x :
  NoDup (mjoin ls) → ls !! i = Some a → ls !! j = Some b → i ≠ j →
  x ∈ a → x ∉ b.
Proof.
  revert i j. induction ls as [|l ls IH]; intros i j Hnd Hi Hj Hij Ha Hb;
    [done|].
  simpl in Hnd. apply NoDup_app in Hnd as (Hl & Hdisj & Hls).
  destruct i as [|i], j as [|j]; simplify_eq/=.
  - apply (Hdisj x Ha). apply list_elem_of_join. exists b.
    split; [done|]. by eapply list_elem_of_lookup_2.
  - apply (Hdisj x Hb). apply list_elem_of_join. exists a.
    split; [done|]. by eapply list_elem_of_lookup_2.
  - eapply (IH i j); eauto.
Qed.

Lemma NoDup_join_lookup {A} (ls : list (list A)) i a :
  NoDup (mjoin ls) → ls !! i = Some a → NoDup a.
Proof.
  revert i. induction ls as [|l ls IH]; intros i Hnd Hi; [done|].
  simpl in Hnd. apply NoDup_app in Hnd as (Hl & Hdisj & Hls).
  destruct i as [|i]; simplify_eq/=; eauto.
Qed.

(** Replacing one list by a list of its elements and of elements new to
    all the lists keeps them disjoint. *)
Lemma NoDup_join_insert {A} (ls : list (list A)) i a a' :
  NoDup (mjoin ls) → ls !! i = Some a → NoDup a' →
  (∀ x, x ∈ a' → x ∈ a ∨ x ∉ mjoin ls) →
  NoDup (mjoin (<[i := a']> ls)).
Proof.
  revert i. induction ls as [|l ls IH]; intros i Hnd Hi Ha' Hnew; [done|].
  simpl in Hnd. apply NoDup_app in Hnd as (Hl & Hdisj & Hls).
  destruct i as [|i]; simplify_eq/=.
  - apply NoDup_app. split_and!; [done| |done].
    intros x Hx Hin. destruct (Hnew x Hx) as [Hxa|Hxn].
    + by apply (Hdisj x).
    + apply Hxn. apply elem_of_app. by right.
  - apply NoDup_app. split_and!; [done| |].
    + intros x Hx Hin. apply list_elem_of_join in Hin as (b & Hxb & Hb).
      apply list_elem_of_lookup in Hb as [j Hj].
      apply list_lookup_insert_Some in Hj as [(-> & -> & Hlt)|[Hne Hj]].
      * destruct (Hnew x Hxb) as [Hxa|Hxn].
        -- apply (Hdisj x Hx). apply list_elem_of_join. exists a.
           split; [done|]. by eapply list_elem_of_lookup_2.
        -- apply Hxn. apply elem_of_app. by left.
      * apply (Hdisj x Hx). apply list_elem_of_join. exists b.
        split; [done|]. by eapply list_elem_of_lookup_2.
    + eapply IH; eauto. intros x Hx. destruct (Hnew x Hx) as [?|Hxn]; [by left|].
      right. intros Hin. apply Hxn. apply elem_of_app. by right.
Qed.

(** ** The search, over the store *)

Lemma matchesNode_Ok h cell c k n :
  h !! k = Some (ONode n) →
  matchesNode (Some cell) c k h
  = Ok (matches_b cell c (name n) (startTime n) (endTime n)) h.
Proof.
  intros Hk. unfold matchesNode.
  by rewrite (bind_Ok _ _ _ _ _ (getNode_Ok _ _ _ Hk)).
Qed.

Lemma matchesNode_stored h cell c t :
  stored h t →
  matchesNode (Some cell) c (root_loc t) h
  = Ok (matchesTree_b cell c (erase t)) h.
Proof.
  intros [Hroot _]%stored_inv. unfold matchesNode.
  rewrite (bind_Ok _ _ _ _ _ (getNode_Ok _ _ _ Hroot)).
  unfold matchesTree_b.
  by rewrite t_name_erase, t_startTime_erase, t_endTime_erase.
Qed.

Lemma find_matchesNode_stored h cell c ts :
  Forall (stored h) ts →
  find (matchesNode (Some cell) c) (root_loc <$> ts) h
  = Ok (root_loc ∘ snd <$> list_find (matchesTree_b cell c ∘ erase) ts) h.
Proof.
  induction 1 as [|t ts Ht Hts IH]; simpl; [done|].
  rewrite (bind_Ok _ _ _ _ _ (matchesNode_stored _ _ _ _ Ht)).
  unfold decide, Is_true_dec.
  destruct (matchesTree_b cell c (erase t)); simpl; [done|].
  change (list_fmap LTree nat root_loc ts) with (root_loc <$> ts).
  rewrite IH. unfold compose. by destruct (list_find _ ts) as [[i x]|].
Qed.

Lemma find_matchesNode_undefined h c t ts :
  stored h t →
  find (matchesNode None c) (root_loc <$> t :: ts) h = Throw TypeError h.
Proof.
  intros [Hroot _]%stored_inv. simpl. unfold matchesNode.
  apply bind_Throw.
  by rewrite (bind_Ok _ _ _ _ _ (getNode_Ok _ _ _ Hroot)).
Qed.

Lemma list_find_erase (P : StackTree → bool) ts i m :
  list_find P (erase <$> ts) = Some (i, m) →
  ∃ lm, list_find (P ∘ erase) ts = Some (i, lm) ∧ erase lm = m
        ∧ ts !! i = Some lm.
Proof.
  rewrite list_find_fmap. intros Hf.
  destruct (list_find _ ts) as [[j lm]|] eqn:Hfind; simplify_eq/=.
  exists lm. split_and!; [done..|].
  by apply list_find_Some in Hfind as (? & _).
Qed.

Lemma list_find_erase_None (P : StackTree → bool) ts :
  list_find P (erase <$> ts) = None →
  list_find (P ∘ erase) ts = None.
Proof.
  rewrite list_find_fmap. by destruct (list_find _ ts).
Qed.

(** ** The first statement of [addCallToTree], over the store *)

Lemma stored_init_children h t :
  stored h t →
  ∃ h0,
    (if children (cell_of t) is None
     then setNode (root_loc t)
            {| children := Some []; name := name (cell_of t);
               startTime := startTime (cell_of t);
               endTime := endTime (cell_of t); raw := raw (cell_of t) |}
     else ret tt) h = Ok tt h0
    ∧ stored h0 (init_children t)
    ∧ length h0 = length h
    ∧ ∀ l, l ≠ root_loc t → h0 !! l = h !! l.
Proof.
  intros Hst. pose proof Hst as [Hroot Hkids]%stored_inv.
  destruct t as [l [ts|] nm s e r]; simpl in *.
  - exists h. split_and!; [done| |done..]. by constructor.
  - exists (<[l := ONode (cell_of (init_children (LT l None nm s e r)))]> h).
    split_and!.
    + by erewrite setNode_Ok.
    + constructor; simpl; [|constructor].
      apply list_lookup_insert_eq. by eapply lookup_lt_Some.
    + by rewrite length_insert.
    + intros l' Hne. by rewrite list_lookup_insert_ne.
Qed.

(** ** Replacing and adding a child of a stored tree *)

Lemma lkids_set_kids t ks : lkids (set_kids t ks) = ks.
Proof. done. Qed.

Lemma erase_set_kids t ks :
  erase (set_kids t ks) = with_children (erase t) (erase <$> ks).
Proof. by destruct t. Qed.

Lemma locs_kid_not_root t i k :
  NoDup (locs t) → lkids t !! i = Some k → root_loc t ∉ locs k.
Proof.
  rewrite locs_unfold. intros [Hroot _]%NoDup_cons Hk Hin. apply Hroot.
  apply list_elem_of_join. exists (locs k). split; [done|].
  apply list_elem_of_fmap_2. by eapply list_elem_of_lookup_2.
Qed.

Lemma locs_kid_NoDup t i k :
  NoDup (locs t) → lkids t !! i = Some k → NoDup (locs k).
Proof.
  rewrite locs_unfold. intros [_ Hnd]%NoDup_cons Hk.
  eapply (NoDup_join_lookup _ i); [done|].
  by rewrite list_lookup_fmap, Hk.
Qed.

Lemma locs_kids_disjoint t i j a b l :
  NoDup (locs t) → lkids t !! i = Some a → lkids t !! j = Some b → i ≠ j →
  l ∈ locs a → l ∉ locs b.
Proof.
  rewrite locs_unfold. intros [_ Hnd]%NoDup_cons Ha Hb Hij.
  eapply (NoDup_join_lookup_disjoint _ i j); [done| | |done].
  - by rewrite list_lookup_fmap, Ha.
  - by rewrite list_lookup_fmap, Hb.
Qed.

Lemma stored_update_kid h h' t i k k' :
  stored h t → NoDup (locs t) → is_Some (lt_children t) →
  lkids t !! i = Some k →
  stored h' k' → NoDup (locs k') →
  fresh_cells h k k' → frame_outside (locs k) h h' →
  stored h' (set_kids t (<[i := k']> (lkids t)))
  ∧ NoDup (locs (set_kids t (<[i := k']> (lkids t))))
  ∧ fresh_cells h t (set_kids t (<[i := k']> (lkids t)))
  ∧ frame_outside (locs t) h h'.
Proof.
  intros Hst Hnd [ts Hts] Hk Hst' Hnd' [Hroot' Hfresh] [Hlen Hframe].
  pose proof Hst as [Hroot Hkids]%stored_inv.
  assert (Hin : ∀ l, l ∈ locs k → l ∈ locs t).
  { intros l. apply elem_of_locs_kid. by eapply list_elem_of_lookup_2. }
  split_and!.
  - constructor.
    + simpl. rewrite Hframe.
      * rewrite Hroot. do 2 f_equal. unfold cell_of. simpl.
        rewrite Hts. simpl. do 2 f_equal.
        assert (lkids t = ts) as Hlk by (unfold lkids; by rewrite Hts).
        rewrite list_fmap_insert, Hroot', Hlk. symmetry.
        apply list_insert_id.
        rewrite list_lookup_fmap, <- Hlk. by rewrite Hk.
      * by eapply lookup_lt_Some.
      * by eapply locs_kid_not_root.
    + simpl. apply Forall_lookup. intros j x Hj.
      apply list_lookup_insert_Some in Hj as [(-> & -> & _)|[Hne Hj]]; [done|].
      rewrite Forall_lookup in Hkids.
      eapply stored_frame; [by eapply Hkids|].
      intros l Hl. apply Hframe.
      * eapply stored_locs_lt; [|done]. by eapply Hkids.
      * intros Hlk. by eapply (locs_kids_disjoint t i j k x l).
  - pose proof Hnd as Hnd0.
    rewrite locs_unfold. simpl. rewrite locs_unfold in Hnd.
    apply NoDup_cons in Hnd as [Hnotin Hnd]. apply NoDup_cons. split.
    + intros Hroot_in. apply list_elem_of_join in Hroot_in as (ls & Hl & Hls).
      apply list_elem_of_fmap in Hls as (x & -> & Hx).
      apply list_elem_of_lookup in Hx as [j Hj].
      apply list_lookup_insert_Some in Hj as [(-> & -> & _)|[Hne Hj]].
      * destruct (Hfresh _ Hl) as [Hlk|Hge].
        -- by eapply locs_kid_not_root.
        -- apply lookup_lt_Some in Hroot. lia.
      * apply Hnotin. apply list_elem_of_join. exists (locs x).
        split; [done|]. apply list_elem_of_fmap_2.
        by eapply list_elem_of_lookup_2.
    + rewrite lkids_set_kids, list_fmap_insert.
      eapply NoDup_join_insert; [done| |done|].
      * by rewrite list_lookup_fmap, Hk.
      * intros l Hl. destruct (Hfresh _ Hl) as [?|Hge]; [by left|]. right.
        intros Hl'. apply list_elem_of_join in Hl' as (ls & Hl' & Hls).
        apply list_elem_of_fmap in Hls as (x & -> & Hx).
        rewrite Forall_forall in Hkids.
        pose proof (stored_locs_lt h x l (Hkids x Hx) Hl'). lia.
  - split; [done|]. intros l. rewrite (locs_unfold (set_kids _ _)),
      (locs_unfold t). simpl. intros [->|Hl]%elem_of_cons.
    + left. left.
    + apply list_elem_of_join in Hl as (ls & Hl & Hls).
      apply list_elem_of_fmap in Hls as (x & -> & Hx).
      apply list_elem_of_lookup in Hx as [j Hj].
      apply list_lookup_insert_Some in Hj as [(-> & -> & _)|[Hne Hj]].
      * destruct (Hfresh _ Hl) as [Hlk|Hge]; [|by right]. left.
        rewrite <- locs_unfold. auto.
      * left. right. apply list_elem_of_join. exists (locs x).
        split; [done|]. apply list_elem_of_fmap_2.
        by eapply list_elem_of_lookup_2.
  - split; [done|]. intros l Hl Hnl. apply Hframe; auto.
Qed.

Lemma stored_push_kid h h' t k' :
  stored h t → NoDup (locs t) →
  h' !! root_loc t = Some (ONode (cell_of (set_kids t (lkids t ++ [k'])))) →
  stored h' k' → NoDup (locs k') →
  (∀ l, l ∈ locs k' → length h ≤ l) →
  length h ≤ length h' →
  (∀ l, l < length h → l ≠ root_loc t → h' !! l = h !! l) →
  stored h' (set_kids t (lkids t ++ [k']))
  ∧ NoDup (locs (set_kids t (lkids t ++ [k'])))
  ∧ fresh_cells h t (set_kids t (lkids t ++ [k']))
  ∧ frame_outside (locs t) h h'.
Proof.
  intros Hst Hnd Hroot' Hst' Hnd' Hfresh Hlen Hframe.
  pose proof Hst as [Hroot Hkids]%stored_inv.
  assert (Hold : ∀ x l, x ∈ lkids t → l ∈ locs x → l < length h).
  { intros x l Hx Hl. rewrite Forall_forall in Hkids.
    eapply stored_locs_lt; [by apply Hkids|done]. }
  split_and!.
  - constructor; [done|]. simpl. apply Forall_app. split; [|by constructor].
    apply Forall_lookup. intros j x Hj. rewrite Forall_lookup in Hkids.
    eapply stored_frame; [by eapply Hkids|].
    intros l Hl. apply Hframe.
    + eapply Hold; [|done]. by eapply list_elem_of_lookup_2.
    + intros ->. by eapply (locs_kid_not_root t j x).
  - rewrite locs_unfold. simpl. rewrite locs_unfold in Hnd.
    apply NoDup_cons in Hnd as [Hnotin Hnd].
    rewrite lkids_set_kids, fmap_app, join_app. simpl. rewrite app_nil_r.
    apply NoDup_cons. split.
    + intros [Hin|Hin]%elem_of_app; [done|].
      apply Hfresh in Hin. apply lookup_lt_Some in Hroot. lia.
    + apply NoDup_app. split_and!; [done| |done].
      intros l Hl Hl'. apply Hfresh in Hl'.
      apply list_elem_of_join in Hl as (ls & Hl & Hls).
      apply list_elem_of_fmap in Hls as (x & -> & Hx).
      pose proof (Hold x l Hx Hl). lia.
  - split; [done|]. intros l. rewrite (locs_unfold (set_kids _ _)),
      (locs_unfold t). simpl. rewrite lkids_set_kids, fmap_app, join_app.
    simpl. rewrite app_nil_r.
    intros [->|[Hl|Hl]%elem_of_app]%elem_of_cons.
    + left. left.
    + left. by right.
    + right. auto.
  - split; [done|]. intros l Hl Hnl. apply Hframe; [done|].
    intros ->. apply Hnl. rewrite locs_unfold. left.
Qed.

Lemma locs_init_children t : locs (init_children t) = locs t.
Proof. by destruct t as [l [ts|] nm s e r]. Qed.

Lemma newNode_push h t n :
  h !! root_loc t = Some (ONode (cell_of (init_children t))) →
  (node <- newNode n ;; push (root_loc t) node) h = Ok tt (pushed h t n).
Proof.
  intros Hroot. unfold bind at 1, newNode, push.
  assert (Hroot1 : (h ++ [ONode n]) !! root_loc t
                   = Some (ONode (cell_of (init_children t)))).
  { rewrite lookup_app_l; [done|]. by eapply lookup_lt_Some. }
  rewrite (bind_Ok _ _ _ _ _ (getNode_Ok _ _ _ Hroot1)). simpl.
  by erewrite setNode_Ok.
Qed.

Lemma newNode_push_ret h t n :
  h !! root_loc t = Some (ONode (cell_of (init_children t))) →
  (node <- newNode n ;; push (root_loc t) node ;;; ret node) h
  = Ok (length h) (pushed h t n).
Proof.
  intros Hroot. unfold bind at 1, newNode, push.
  assert (Hroot1 : (h ++ [ONode n]) !! root_loc t
                   = Some (ONode (cell_of (init_children t)))).
  { rewrite lookup_app_l; [done|]. by eapply lookup_lt_Some. }
  unfold bind at 1.
  rewrite (bind_Ok _ _ _ _ _ (getNode_Ok _ _ _ Hroot1)). simpl.
  by erewrite setNode_Ok.
Qed.

Lemma pushed_facts h t n :
  h !! root_loc t = Some (ONode (cell_of (init_children t))) →
  length (pushed h t n) = S (length h)
  ∧ pushed h t n !! length h = Some (ONode n)
  ∧ (∀ k', root_loc k' = length h →
       pushed h t n !! root_loc t
       = Some (ONode (cell_of (set_kids t (lkids t ++ [k'])))))
  ∧ (∀ l, l < length h → l ≠ root_loc t → pushed h t n !! l = h !! l).
Proof.
  intros Hroot. apply lookup_lt_Some in Hroot as Hlt. unfold pushed.
  split_and!.
  - rewrite length_insert, length_app. simpl. lia.
  - rewrite list_lookup_insert_ne by lia.
    by rewrite lookup_app_r, Nat.sub_diag.
  - intros k' Hk'. rewrite list_lookup_insert_eq
      by (rewrite length_app; simpl; lia).
    unfold cell_of. simpl. by rewrite fmap_app, <- Hk'.
  - intros l Hl Hne. rewrite list_lookup_insert_ne by done.
    by rewrite lookup_app_l.
Qed.

(** The conclusions of the simulation, from those about the tree whose
    [children] field is set. *)
Lemma sim_glue h h0 h' t t' :
  length h0 = length h →
  frame_outside (locs t) h h0 →
  stored h' t' ∧ NoDup (locs t')
  ∧ fresh_cells h0 (init_children t) t'
  ∧ frame_outside (locs (init_children t)) h0 h' →
  stored h' t' ∧ NoDup (locs t') ∧ fresh_cells h t t'
  ∧ frame_outside (locs t) h h'.
Proof.
  intros Hlen Hf0 (Hst & Hnd & [Hr Hfresh] & Hf).
  rewrite locs_init_children in Hf.
  split_and!; [done..| |by eapply frame_outside_trans].
  split; [done|]. intros l Hl. rewrite <- Hlen, <- locs_init_children. auto.
Qed.

(** ** The store model simulates the function on trees *)

Lemma addCallToTree_fuel_sim fuel h lt call c stack index :
  h !! call = Some (OCall c) →
  stored h lt → NoDup (locs lt) →
  match addCallToTree_pure_fuel fuel (erase lt) call c stack index with
  | Done t' =>
      ∃ h' lt',
        addCallToTree_fuel fuel (root_loc lt) call stack index h = Ok tt h'
        ∧ stored h' lt' ∧ NoDup (locs lt') ∧ erase lt' = t'
        ∧ fresh_cells h lt lt' ∧ frame_outside (locs lt) h h'
  | Raise e =>
      ∃ h',
        addCallToTree_fuel fuel (root_loc lt) call stack index h = Throw e h'
        ∧ frame_outside (locs lt) h h'
  end.
Proof.
  revert h lt index. induction fuel as [|fuel IH]; intros h lt index Hcall Hst Hnd.
  { simpl. exists h. split; [done|apply frame_outside_refl]. }
  destruct (stored_init_children h lt Hst) as (h0 & Hinit & Hst0 & Hlen0 & Hsame0).
  pose proof Hst as [Hroot Hkids]%stored_inv.
  pose proof Hst0 as [Hroot0 Hkids0]%stored_inv.
  assert (Hcall0 : h0 !! call = Some (OCall c)).
  { rewrite Hsame0; [done|]. intros ->. congruence. }
  assert (Hframe0 : frame_outside (locs lt) h h0).
  { split; [lia|]. intros l _ Hl. apply Hsame0. intros ->. apply Hl.
    rewrite locs_unfold. left. }
  cbn [addCallToTree_fuel addCallToTree_pure_fuel].
  rewrite (bind_Ok _ _ _ _ _ (getCall_Ok _ _ _ Hcall)).
  rewrite (bind_Ok _ _ _ _ _ (getNode_Ok _ _ _ Hroot)).
  rewrite (bind_Ok _ _ _ _ _ Hinit).
  rewrite (bind_Ok _ _ _ _ _ (getNode_Ok _ _ _ Hroot0)).
  rewrite kids_erase.
  change (lkids (init_children lt)) with (lkids lt) in Hkids0.
  change (default [] (children (cell_of (init_children lt))))
    with (root_loc <$> lkids lt).
  destruct (stack !! index) as [cell|] eqn:Hcell; cycle 1.
  { (* the stack cell is undefined *)
    assert (Hne : (Z.of_nat index =? Z.of_nat (length stack) - 1)%Z = false).
    { apply lookup_ge_None in Hcell. apply Z.eqb_neq. lia. }
    destruct (lkids lt) as [|k ks] eqn:Hks.
    - simpl. rewrite Hne. simpl. exists h0. split; [|done].
      unfold bind at 1. done.
    - rewrite fmap_cons, (find_pure_raise _ TypeError) by done. simpl.
      exists h0.
      split; [|done].
      apply bind_Throw. apply find_matchesNode_undefined.
      by apply Forall_cons in Hkids0 as [? _]. }
  rewrite (find_pure_list_find _ (matchesTree_b cell c)) by done.
  rewrite (bind_Ok _ _ _ _ _ (find_matchesNode_stored _ _ _ _ Hkids0)).
  rewrite list_find_fmap. cbn [rbind].
  assert (Hnd0 : NoDup (locs (init_children lt)))
    by by rewrite locs_init_children.
  destruct (getStartAndEndTimes (Some (perf c))) as [s' e'] eqn:Htimes.
  destruct (list_find _ (lkids lt)) as [[i lm]|] eqn:Hfind; cbn [fmap option_fmap option_map prod_map fst snd id].
  - (* a child matches *)
    apply list_find_Some in Hfind as (Hlm & _ & _).
    assert (Hstm : stored h0 lm).
    { rewrite Forall_lookup in Hkids0. by eapply Hkids0. }
    pose proof Hstm as [Hrootm Hkidsm]%stored_inv.
    assert (Hndm : NoDup (locs lm)) by by eapply locs_kid_NoDup.
    destruct (Z.eqb_spec (Z.of_nat index) (Z.of_nat (length stack) - 1)).
    + (* the last cell: the child is closed *)
      set (lm' := LT (root_loc lm) (lt_children lm) (lt_name lm) s' e'
                     (Some call)).
      eexists _, (set_kids lt (<[i := lm']> (lkids lt))).
      split.
      { unfold compose. simpl.
        rewrite (bind_Ok _ _ _ _ _ (getNode_Ok _ _ _ Hrootm)).
        by erewrite setNode_Ok. }
      sim_conclude.
      { rewrite erase_set_kids, list_fmap_insert. unfold with_children.
        by destruct lm. }
      apply (sim_glue h h0); [done..|].
      apply (stored_update_kid h0 _ (init_children lt) i lm lm');
        [done|done|by eexists|exact Hlm| |by destruct lm| |].
      * constructor.
        -- simpl. apply list_lookup_insert_eq. by eapply lookup_lt_Some.
        -- change (lkids lm') with (lkids lm).
           apply Forall_lookup. intros j x Hj.
           rewrite Forall_lookup in Hkidsm.
           eapply stored_frame; [by eapply Hkidsm|].
           intros l Hl. apply list_lookup_insert_ne. intros <-.
           by eapply (locs_kid_not_root lm j x).
      * split; [done|]. intros l Hl. left. by destruct lm.
      * split; [by rewrite length_insert|].
        intros l _ Hl. apply list_lookup_insert_ne. intros <-. apply Hl.
        rewrite locs_unfold. left.
    + (* a cell above: the call goes under the child *)
      specialize (IH h0 lm (index + 1) Hcall0 Hstm Hndm).
      unfold compose. simpl. rewrite !bind_ret.
      destruct (addCallToTree_pure_fuel fuel (erase lm) call c stack
                  (index + 1)) as [m'|err]; cbn [rbind].
      * destruct IH as (h1 & lm1 & Hrun & Hst1 & Hnd1 & Herase & Hfresh & Hf).
        exists h1, (set_kids lt (<[i := lm1]> (lkids lt))).
        split; [done|].
        sim_conclude.
        { rewrite erase_set_kids, list_fmap_insert. unfold with_children.
          by rewrite Herase, t_name_erase, t_startTime_erase,
            t_endTime_erase, t_raw_erase. }
        apply (sim_glue h h0); [done..|].
        by apply (stored_update_kid h0 _ (init_children lt) i lm lm1);
          [done|done|eexists|exact Hlm|..].
      * destruct IH as (h1 & Hrun & Hf). exists h1. split; [done|].
        eapply frame_outside_trans; [done|].
        eapply frame_outside_mono; [|done].
        intros l. apply elem_of_locs_kid. by eapply list_elem_of_lookup_2.
  - (* no child matches *)
    clear Hfind. apply lookup_lt_Some in Hroot0 as Hroot_lt.
    assert (Hcall_lt : call < length h0) by by eapply lookup_lt_Some.
    assert (Hcall_ne : call ≠ root_loc lt) by (intros ->; congruence).
    destruct (Z.eqb_spec (Z.of_nat index) (Z.of_nat (length stack) - 1)).
    + (* the last cell: a new closed node *)
      set (nd := {| children := None; name := cellName cell;
                   startTime := s'; endTime := e'; raw := Some call |}).
      set (k' := LT (length h0) None (cellName cell) s' e' (Some call)).
      destruct (pushed_facts h0 (init_children lt) nd Hroot0)
        as (Hlenp & Hnewp & Hrootp & Hsamep).
      exists (pushed h0 (init_children lt) nd), (set_kids lt (lkids lt ++ [k'])).
      split.
      { simpl. rewrite bind_ret.
        by apply (newNode_push h0 (init_children lt)). }
      sim_conclude.
      { rewrite erase_set_kids, fmap_app. by destruct lt. }
      apply (sim_glue h h0); [done..|].
      apply (stored_push_kid h0 _ (init_children lt) k');
        [done|done|by apply Hrootp| |apply NoDup_singleton| |lia|done].
      * constructor; [done|constructor].
      * by intros l ->%list_elem_of_singleton.
    + (* a cell above: a new node, and the call goes under it *)
      set (nd := {| children := Some []; name := cellName cell;
                   startTime := None; endTime := None; raw := None |}).
      set (k := LT (length h0) (Some []) (cellName cell) None None None).
      destruct (pushed_facts h0 (init_children lt) nd Hroot0)
        as (Hlenp & Hnewp & Hrootp & Hsamep).
      assert (Hrun0 :
        (cellName0 <- lift (getNameFromCell (Some cell)) ;;
         node <- newNode {| children := Some []; name := cellName0;
                            startTime := None; endTime := None;
                            raw := None |} ;;
         push (root_loc lt) node ;;; ret node) h0
        = Ok (length h0) (pushed h0 (init_children lt) nd)).
      { simpl. rewrite bind_ret.
        by apply (newNode_push_ret h0 (init_children lt)). }
      simpl. rewrite !(bind_Ok _ _ _ _ _ Hrun0).
      assert (Hstk : stored (pushed h0 (init_children lt) nd) k)
        by (constructor; [done|constructor]).
      assert (Hcallp : pushed h0 (init_children lt) nd !! call
                       = Some (OCall c)) by by rewrite Hsamep.
      specialize (IH _ k (index + 1) Hcallp Hstk (NoDup_singleton _)).
      change (erase k) with (Tree (Some []) (cellName cell) None None None)
        in IH.
      destruct (addCallToTree_pure_fuel fuel (Tree _ _ _ _ _) call c stack
                  (index + 1)) as [node'|err]; cbn [rbind].
      * destruct IH as (h1 & k1 & Hrun & Hst1 & Hnd1 & Herase & [Hr1 Hfresh]
                        & [Hlen1 Hf]).
        exists h1, (set_kids lt (lkids lt ++ [k1])).
        split; [done|].
        sim_conclude.
        { rewrite erase_set_kids, fmap_app. simpl. rewrite Herase.
          by destruct lt. }
        apply (sim_glue h h0); [done..|].
        apply (stored_push_kid h0 _ (init_children lt) k1);
          [done|done| |done|done| |lia|].
        -- rewrite Hf; [by apply Hrootp|lia|].
           intros Heq%list_elem_of_singleton. simpl in *. lia.
        -- intros l Hl. destruct (Hfresh l Hl) as [->%list_elem_of_singleton|];
             simpl; lia.
        -- intros l Hl Hne. rewrite Hf; [by apply Hsamep|lia|].
           intros ->%list_elem_of_singleton. simpl in *. lia.
      * destruct IH as (h1 & Hrun & [Hlen1 Hf]). exists h1. split; [done|].
        eapply frame_outside_trans; [done|]. split; [lia|].
        intros l Hl Hnl. rewrite Hf; [apply Hsamep; [done|]|lia|].
        -- intros ->. apply Hnl. rewrite locs_unfold. left.
        -- intros ->%list_elem_of_singleton. simpl in *. lia.
Qed.

Lemma addCallToTree_sim h lt call c stack index :
  h !! call = Some (OCall c) →
  stored h lt → NoDup (locs lt) →
  match addCallToTree_pure (erase lt) call c stack index with
  | Done t' =>
      ∃ h' lt',
        addCallToTree (root_loc lt) call stack index h = Ok tt h'
        ∧ stored h' lt' ∧ NoDup (locs lt') ∧ erase lt' = t'
        ∧ fresh_cells h lt lt' ∧ frame_outside (locs lt) h h'
  | Raise e =>
      ∃ h',
        addCallToTree (root_loc lt) call stack index h = Throw e h'
        ∧ frame_outside (locs lt) h h'
  end.
Proof. apply addCallToTree_fuel_sim. Qed.

(** The fuel [addCallToTree] starts with is enough: on a tree of the store
    it returns when [index] is within the stack, and throws a [TypeError]
    when it is not. *)
Lemma addCallToTree_total h tree t call c stack index :
  represents h tree t →
  h !! call = Some (OCall c) →
  (index < length stack →
     ∃ h', addCallToTree tree call stack index h = Ok tt h')
  ∧ (length stack ≤ index →
     ∃ h', addCallToTree tree call stack index h = Throw TypeError h').
Proof.
  intros (lt & Hst & Hnd & <- & <-) Hcall.
  pose proof (addCallToTree_sim h lt call c stack index Hcall Hst Hnd) as Hsim.
  split; intros Hindex.
  - destruct (inserted_total call c stack index (erase lt) Hindex)
      as [t' Ht'].
    apply addCallToTree_pure_inserted in Ht'. rewrite Ht' in Hsim.
    destruct Hsim as (h' & _ & Hrun & _). eauto.
  - rewrite addCallToTree_pure_out_of_range in Hsim by done.
    destruct Hsim as (h' & Hrun & _). eauto.
Qed.

(** The cells of the input are not cells of the tree. *)
Lemma frame_outside_input h h' t l o :
  stored h t → frame_outside (locs t) h h' →
  h !! l = Some o → (∀ n, o ≠ ONode n) → h' !! l = Some o.
Proof.
  intros Hst [_ Hf] Hl Ho. rewrite Hf; [done|by eapply lookup_lt_Some|].
  intros Hin. destruct (stored_locs_node _ _ _ Hst Hin) as [n Hn].
  apply (Ho n). congruence.
Qed.

Lemma calls_at_frame h h' cs pcs :
  (∀ l c, h !! l = Some (OCall c) → h' !! l = Some (OCall c)) →
  calls_at h cs = Some pcs → calls_at h' cs = Some pcs.
Proof.
  intros Hf. revert pcs. induction cs as [|call cs IH]; intros pcs; [done|].
  simpl. unfold call_at.
  destruct (h !! call) as [[r|c|n]|] eqn:Hcall; try done.
  rewrite (Hf _ _ Hcall).
  destruct (calls_at h cs) as [pcs'|]; [|done].
  by rewrite (IH pcs').
Qed.

Lemma for_calls_sim cs : ∀ h lt pcs,
  calls_at h cs = Some pcs →
  stored h lt → NoDup (locs lt) →
  match for_calls_pure (erase lt) pcs with
  | Done t' =>
      ∃ h' lt',
        for_calls (root_loc lt) cs h = Ok tt h'
        ∧ stored h' lt' ∧ NoDup (locs lt') ∧ erase lt' = t'
        ∧ fresh_cells h lt lt' ∧ frame_outside (locs lt) h h'
  | Raise e =>
      ∃ h',
        for_calls (root_loc lt) cs h = Throw e h'
        ∧ frame_outside (locs lt) h h'
  end.
Proof.
  induction cs as [|call cs IH]; intros h lt pcs Hcs Hst Hnd.
  { simplify_eq/=. exists h, lt. split_and!; try done. split; auto. }
  simpl in Hcs. unfold call_at in Hcs.
  destruct (h !! call) as [[r|c|n]|] eqn:Hcall; try done.
  destruct (calls_at h cs) as [pcs'|] eqn:Hcs'; [|done]. simplify_eq/=.
  rewrite (bind_Ok _ _ _ _ _ (getCall_Ok _ _ _ Hcall)).
  pose proof (addCallToTree_sim h lt call c (stack c) 0 Hcall Hst Hnd) as Hsim.
  destruct (addCallToTree_pure (erase lt) call c (stack c) 0) as [t1|e];
    cbn [rbind].
  - destruct Hsim as (h1 & lt1 & Hrun & Hst1 & Hnd1 & <- & [Hr1 Hfresh1] & Hf1).
    rewrite (bind_Ok _ _ _ _ _ Hrun).
    assert (Hcs1 : calls_at h1 cs = Some pcs').
    { eapply calls_at_frame; [|done]. intros l c' Hl.
      by apply (frame_outside_input h h1 lt). }
    specialize (IH h1 lt1 pcs' Hcs1 Hst1 Hnd1). rewrite Hr1 in IH.
    assert (Hf2 : ∀ h2, frame_outside (locs lt1) h1 h2 →
                        frame_outside (locs lt) h h2).
    { intros h2 [Hlen2 Hf2]. destruct Hf1 as [Hlen1 Hf1]. split; [lia|].
      intros l Hl Hnl. rewrite Hf2, Hf1; [done..|lia|].
      intros Hin. destruct (Hfresh1 l Hin); [done|lia]. }
    destruct (for_calls_pure (erase lt1) pcs') as [t2|e].
    + destruct IH as (h2 & lt2 & Hrun2 & Hst2 & Hnd2 & <- & [Hr2 Hfresh2] & Hf).
      exists h2, lt2. split_and!; try done; [|by apply Hf2].
      split; [congruence|]. intros l Hl.
      destruct (Hfresh2 l Hl) as [Hin|Hge].
      * apply Hfresh1 in Hin. done.
      * right. destruct Hf1. lia.
    + destruct IH as (h2 & Hrun2 & Hf). exists h2. split; [done|by apply Hf2].
  - destruct Hsim as (h1 & Hrun & Hf1). exists h1.
    by rewrite (bind_Throw _ _ _ _ _ Hrun).
Qed.

(** [createTreeFromCalls] over the store is [createTreeFromCalls_pure] on
    the record the store holds: it returns when the function does, with a
    new root cell that represents the same tree, and throws when the function
    throws; either way no cell of the store it started from is changed. *)
Lemma createTreeFromCalls_sim h recordJSON p pcs :
  record_at h recordJSON = Some (p, pcs) →
  match createTreeFromCalls_pure p pcs with
  | Done t =>
      ∃ h',
        createTreeFromCalls recordJSON h = Ok (length h) h'
        ∧ represents h' (length h) t
        ∧ length h < length h'
        ∧ ∀ l, l < length h → h' !! l = h !! l
  | Raise e =>
      ∃ h',
        createTreeFromCalls recordJSON h = Throw e h'
        ∧ length h < length h'
        ∧ ∀ l, l < length h → h' !! l = h !! l
  end.
Proof.
  unfold record_at. intros Hrec.
  destruct (h !! recordJSON) as [[r|c|n]|] eqn:Hr; try done.
  destruct (calls_at h (calls r)) as [pcs'|] eqn:Hcs; [|done]. simplify_eq/=.
  unfold createTreeFromCalls_pure.
  set (root := LT (length h) (Some []) "App"
                 (Some (new_Date (start_time (record_perf r))))
                 (Some (new_Date (end_time (record_perf r)))) None).
  set (h0 := h ++ [ONode (cell_of root)]).
  assert (Hst : stored h0 root).
  { constructor; [|constructor]. unfold h0. simpl.
    by rewrite lookup_app_r, Nat.sub_diag. }
  assert (Hrun0 : createTreeFromCalls recordJSON h
                  = (for_calls (root_loc root) (calls r) ;;; ret (length h)) h0).
  { unfold createTreeFromCalls, getRecord, newNode. unfold bind at 1.
    by rewrite Hr. }
  rewrite Hrun0. clear Hrun0.
  assert (Hlen0 : length h0 = S (length h)).
  { unfold h0. rewrite length_app. simpl. lia. }
  assert (Hcs0 : calls_at h0 (calls r) = Some pcs).
  { eapply calls_at_frame; [|done]. intros l c Hl. unfold h0.
    rewrite lookup_app_l; [done|]. by eapply lookup_lt_Some. }
  pose proof (for_calls_sim (calls r) h0 root pcs Hcs0 Hst
                (NoDup_singleton _)) as Hsim.
  change (erase root) with
    (Tree (Some []) "App" (Some (new_Date (start_time (record_perf r))))
          (Some (new_Date (end_time (record_perf r)))) None) in Hsim.
  assert (Hframe : ∀ h', frame_outside (locs root) h0 h' →
            length h < length h' ∧ ∀ l, l < length h → h' !! l = h !! l).
  { intros h' [Hlen Hf]. split; [lia|]. intros l Hl.
    rewrite Hf; [|lia|].
    - unfold h0. by rewrite lookup_app_l.
    - intros ->%list_elem_of_singleton. lia. }
  destruct (for_calls_pure _ pcs) as [t|e].
  - destruct Hsim as (h' & lt' & Hrun & Hst' & Hnd' & Herase & [Hr' _] & Hf).
    exists h'. split_and!; [|by exists lt'|by apply Hframe..].
    by rewrite (bind_Ok _ _ _ _ _ Hrun).
  - destruct Hsim as (h' & Hrun & Hf).
    exists h'. split_and!; [|by apply Hframe..].
    by rewrite (bind_Throw _ _ _ _ _ Hrun).
Qed.

(** ** The record and the tree in the store *)

Lemma calls_at_elem h cs pcs call c :
  calls_at h cs = Some pcs → (call, c) ∈ pcs →
  h !! call = Some (OCall c) ∧ call ∈ cs.
Proof.
  revert pcs. induction cs as [|x cs IH]; intros pcs Hcs Hin.
  { simplify_eq/=. by apply elem_of_nil in Hin. }
  simpl in Hcs. unfold call_at in Hcs.
  destruct (h !! x) as [[r|c'|n]|] eqn:Hx; try done.
  destruct (calls_at h cs) as [pcs'|]; [|done]. simplify_eq/=.
  apply elem_of_cons in Hin as [[= -> ->]|Hin].
  - split; [done|left].
  - destruct (IH pcs' eq_refl Hin). split; [done|by right].
Qed.

Lemma record_at_frame h h' recordJSON x :
  (∀ l, l < length h → h' !! l = h !! l) →
  record_at h recordJSON = Some x → record_at h' recordJSON = Some x.
Proof.
  intros Hf. unfold record_at.
  destruct (h !! recordJSON) as [[r|c|n]|] eqn:Hr; try done.
  rewrite Hf, Hr by by eapply lookup_lt_Some.
  destruct (calls_at h (calls r)) as [pcs|] eqn:Hcs; [|done].
  intros [= <-]. erewrite calls_at_frame; [done| |done].
  intros l c Hl. rewrite Hf; [done|]. by eapply lookup_lt_Some.
Qed.

Lemma represents_frame h h' root t :
  (∀ l, l < length h → h' !! l = h !! l) →
  represents h root t → represents h' root t.
Proof.
  intros Hf (lt & Hst & Hnd & Hroot & Herase).
  exists lt. split_and!; [|done..].
  eapply stored_frame; [done|]. intros l Hl. apply Hf.
  by eapply stored_locs_lt.
Qed.

(** The cell of the root has the fields of the tree. *)
Lemma represents_root h root t :
  represents h root t →
  ∃ n, h !! root = Some (ONode n)
       ∧ name n = t_name t ∧ startTime n = t_startTime t
       ∧ endTime n = t_endTime t ∧ raw n = t_raw t
       ∧ (children n = None ↔ t_children t = None).
Proof.
  intros (lt & [Hroot _]%stored_inv & _ & <- & <-).
  exists (cell_of lt). split_and!; [done|by destruct lt..|].
  by destruct lt as [l [ts|] nm s e r].
Qed.

(** A cell is the root of one tree at most. *)
Lemma stored_erase_unique h t1 :
  ∀ t2, stored h t1 → stored h t2 → root_loc t1 = root_loc t2 →
        erase t1 = erase t2.
Proof.
  induction t1 as [t1 IH] using LTree_ind. intros t2 Hst1 Hst2 Hroot.
  apply stored_inv in Hst1 as [Hroot1 Hkids1].
  apply stored_inv in Hst2 as [Hroot2 Hkids2].
  rewrite Hroot, Hroot2 in Hroot1. injection Hroot1 as Hcell.
  destruct t1 as [l1 cs1 nm1 s1 e1 r1], t2 as [l2 cs2 nm2 s2 e2 r2].
  unfold cell_of in Hcell. simpl in *. simplify_eq/=.
  f_equal. destruct cs1 as [ts1|], cs2 as [ts2|]; simplify_eq/=; [|done].
  f_equal. clear Hroot2. change (Forall (stored h) ts1) in Hkids1.
  change (Forall (stored h) ts2) in Hkids2. simpl in IH.
  revert ts2 Hkids2 Hcell.
  induction ts1 as [|a ts1 IHts]; intros [|b ts2] Hkids2 Heq;
    simplify_eq/=; [done|].
  apply Forall_cons in IH as [IHa IH].
  apply Forall_cons in Hkids1 as [Ha Hkids1].
  apply Forall_cons in Hkids2 as [Hb Hkids2].
  f_equal; [by apply IHa|by apply IHts].
Qed.

Lemma represents_unique h root t1 t2 :
  represents h root t1 → represents h root t2 → t1 = t2.
Proof.
  intros (lt1 & Hst1 & _ & Hr1 & <-) (lt2 & Hst2 & _ & Hr2 & <-).
  apply (stored_erase_unique h); [done..|congruence].
Qed.

Lemma represents_lt h root t : represents h root t → root < length h.
Proof. intros (n & Hn & _)%represents_root. by eapply lookup_lt_Some. Qed.

Lemma createTreeFromCalls_Ok h recordJSON p pcs root h' :
  record_at h recordJSON = Some (p, pcs) →
  createTreeFromCalls recordJSON h = Ok root h' →
  ∃ t, createTreeFromCalls_pure p pcs = Done t
       ∧ represents h' root t
       ∧ root = length h
       ∧ ∀ l, l < length h → h' !! l = h !! l.
Proof.
  intros Hrec Hrun. pose proof (createTreeFromCalls_sim _ _ _ _ Hrec) as Hsim.
  destruct (createTreeFromCalls_pure p pcs) as [t|e].
  - destruct Hsim as (h1 & Hrun1 & Hrep & _ & Hf).
    rewrite Hrun in Hrun1. injection Hrun1 as -> ->. eauto.
  - destruct Hsim as (h1 & Hrun1 & _). congruence.
Qed.

(** ** The function on trees and the run over the store *)

(** What the function on trees returns, the run over the store does. *)
Lemma addCallToTree_represents h tree t call c stack index t' :
  represents h tree t →
  h !! call = Some (OCall c) →
  addCallToTree_pure t call c stack index = Done t' →
  ∃ h', addCallToTree tree call stack index h = Ok tt h'
        ∧ represents h' tree t'
        ∧ h' !! call = Some (OCall c).
Proof.
  intros (lt & Hst & Hnd & <- & <-) Hcall Hpure.
  pose proof (addCallToTree_sim h lt call c stack index Hcall Hst Hnd) as Hsim.
  rewrite Hpure in Hsim.
  destruct Hsim as (h' & lt' & Hrun & Hst' & Hnd' & Herase & [Hroot _] & Hf).
  exists h'. split_and!; [done|by exists lt'|].
  by apply (frame_outside_input h h' lt).
Qed.

Lemma addCallToTree_Ok_pure h tree t call c stack index h' :
  represents h tree t →
  h !! call = Some (OCall c) →
  addCallToTree tree call stack index h = Ok tt h' →
  ∃ t', addCallToTree_pure t call c stack index = Done t'
        ∧ represents h' tree t'
        ∧ h' !! call = Some (OCall c).
Proof.
  intros Hrep Hcall Hrun.
  destruct (addCallToTree_pure t call c stack index) as [t'|e] eqn:Hpure.
  - destruct (addCallToTree_represents _ _ _ _ _ _ _ _ Hrep Hcall Hpure)
      as (h1 & Hrun1 & Hrep1 & Hcall1).
    rewrite Hrun in Hrun1. injection Hrun1 as <-. eauto.
  - destruct Hrep as (lt & Hst & Hnd & <- & <-).
    pose proof (addCallToTree_sim h lt call c stack index Hcall Hst Hnd)
      as Hsim.
    rewrite Hpure in Hsim. destruct Hsim as (h1 & Hrun1 & _). congruence.
Qed.

(** ** The properties of the reconstruction *)

(** The callback of the search is the predicate of the specification when
    the timing of the call is two valid dates, the first not before the
    epoch. *)
Lemma matches_b_contains_spec f c nm s e sv ev :
  new_Date (start_time (perf c)) = Some sv → (0 ≤ sv)%Z →
  new_Date (end_time (perf c)) = Some ev →
  matches_b f c nm s e
  = contains_spec (cellName f) (new_Date (start_time (perf c)))
      (new_Date (end_time (perf c))) nm s e.
Proof.
  intros Hs Hsv He. unfold matches_b, contains_spec. rewrite Hs, He.
  f_equal; [f_equal|].
  - destruct (String.eqb_spec nm (cellName f)).
    + by rewrite bool_decide_true.
    + by rewrite bool_decide_false.
  - destruct s as [d|]; simpl; [done|]. by apply Z.leb_le.
  - by destruct e as [d|].
Qed.

(** The search then finds the first child the specification says. *)
Lemma list_find_first_contained cell c ks sv ev :
  new_Date (start_time (perf c)) = Some sv → (0 ≤ sv)%Z →
  new_Date (end_time (perf c)) = Some ev →
  list_find (matchesTree_b cell c) ks = first_contained cell c ks.
Proof.
  intros Hs Hsv He. unfold first_contained. apply list_find_ext. intros n.
  unfold matchesTree_b, contained.
  by rewrite (matches_b_contains_spec cell c _ _ _ sv ev).
Qed.

(** At the last cell of the stack, by the search of the code: the child it
    finds is closed, or a new child is appended. *)
Lemma last_cell_by_search h tree t call c stack index cell :
  represents h tree t →
  h !! call = Some (OCall c) →
  S index = length stack →
  stack !! index = Some cell →
  ∃ h',
    addCallToTree tree call stack index h = Ok tt h'
    ∧ represents h' tree
        (match list_find (matchesTree_b cell c) (kids t) with
         | Some (i, m) => with_children t (<[i := closed m call c]> (kids t))
         | None => with_children t (kids t ++ [leaf cell call c])
         end).
Proof.
  intros Hrep Hcall Hlast Hcell.
  destruct (addCallToTree_represents h tree t call c stack index
              (match list_find (matchesTree_b cell c) (kids t) with
               | Some (i, m) =>
                   with_children t (<[i := closed m call c]> (kids t))
               | None => with_children t (kids t ++ [leaf cell call c])
               end) Hrep Hcall) as (h' & Hrun & Hrep' & _); [|by eauto].
  apply addCallToTree_pure_inserted.
  destruct (list_find _ _) as [[i m]|] eqn:Hfind.
  - by eapply inserted_close.
  - by eapply inserted_leaf.
Qed.

(** C1, as the code has it. For a call whose [start_time] and [end_time]
    are valid dates, the first not before the epoch, and at every index of
    its stack: the callback of the search of [addCallToTree] returns, on a
    node, what the predicate of the specification says of it (the name is
    the name of the frame, [startTime] is absent or at most the start of the
    call, [endTime] is absent or at least the end of the call); and the child
    [addCallToTree] goes on with is the first child in the order of
    [tree.children] that satisfies the predicate: that child is the one
    closed (at the last index) or descended into (above it), every other
    child is as before and none is added; when no child satisfies the
    predicate, the children are as before and one new branch is appended. *)
Theorem addCallToTree_selects_first_contained
    h tree t call c stack index cell sv ev :
  represents h tree t →
  h !! call = Some (OCall c) →
  stack !! index = Some cell →
  new_Date (start_time (perf c)) = Some sv → (0 ≤ sv)%Z →
  new_Date (end_time (perf c)) = Some ev →
  (∀ k n, h !! k = Some (ONode n) →
     matchesNode (stack !! index) c k h
     = Ok (contains_spec (cellName cell) (new_Date (start_time (perf c)))
             (new_Date (end_time (perf c)))
             (name n) (startTime n) (endTime n)) h)
  ∧ ∃ h',
      addCallToTree tree call stack index h = Ok tt h'
      ∧ match first_contained cell c (kids t) with
        | Some (i, m) =>
            ∃ m',
              represents h' tree (with_children t (<[i := m']> (kids t)))
              ∧ if bool_decide (S index = length stack)
                then m' = closed m call c
                else addCallToTree_pure m call c stack (S index) = Done m'
        | None =>
            represents h' tree
              (with_children t
                 (kids t ++ [chain call c cell (drop (S index) stack)]))
        end.
Proof.
  intros Hrep Hcall Hcell Hs Hsv He. split.
  { intros k n Hk. rewrite Hcell, (matchesNode_Ok _ _ _ _ _ Hk).
    by rewrite (matches_b_contains_spec cell c _ _ _ sv ev). }
  rewrite <- (list_find_first_contained cell c (kids t) sv ev) by done.
  apply lookup_lt_Some in Hcell as Hlt.
  destruct (list_find (matchesTree_b cell c) (kids t)) as [[i m]|] eqn:Hfind.
  - case_bool_decide as Hlast.
    + destruct (addCallToTree_represents h tree t call c stack index
                  (with_children t (<[i := closed m call c]> (kids t)))
                  Hrep Hcall) as (h' & Hrun & Hrep' & _).
      { apply addCallToTree_pure_inserted. by eapply inserted_close. }
      exists h'. split; [done|]. by exists (closed m call c).
    + destruct (inserted_total call c stack (S index) m) as [m' Hm'];
        [lia|].
      destruct (addCallToTree_represents h tree t call c stack index
                  (with_children t (<[i := m']> (kids t)))
                  Hrep Hcall) as (h' & Hrun & Hrep' & _).
      { apply addCallToTree_pure_inserted.
        apply (inserted_descend call c stack index cell t i m m');
          [lia|done..]. }
      exists h'. split; [done|]. exists m'. split; [done|].
      by apply addCallToTree_pure_inserted.
  - destruct (addCallToTree_represents h tree t call c stack index
                (with_children t
                   (kids t ++ [chain call c cell (drop (S index) stack)]))
                Hrep Hcall) as (h' & Hrun & Hrep' & _); [|by eauto].
    by apply addCallToTree_pure_inserted, inserted_chain.
Qed.

(** C2, as the code has it. For a call whose [start_time] and [end_time]
    are valid dates, the first not before the epoch, at the last cell of its
    stack: [addCallToTree] returns, and the tree is then the tree before but
    for one child of the node it starts from. When a child satisfies the
    predicate of the specification, the first such child has the timing and
    the [raw] of the call (its name and its children as before) and no child
    is added; when none does, one more child is at the end, with the name of
    the cell, the timing and the [raw] of the call and no children. Nothing
    below that child is touched. *)
Theorem addCallToTree_last_cell h tree t call c stack index cell sv ev :
  represents h tree t →
  h !! call = Some (OCall c) →
  S index = length stack →
  stack !! index = Some cell →
  new_Date (start_time (perf c)) = Some sv → (0 ≤ sv)%Z →
  new_Date (end_time (perf c)) = Some ev →
  ∃ h',
    addCallToTree tree call stack index h = Ok tt h'
    ∧ represents h' tree
        (match first_contained cell c (kids t) with
         | Some (i, m) => with_children t (<[i := closed m call c]> (kids t))
         | None => with_children t (kids t ++ [leaf cell call c])
         end).
Proof.
  intros Hrep Hcall Hlast Hcell Hs Hsv He.
  rewrite <- (list_find_first_contained cell c (kids t) sv ev) by done.
  by apply last_cell_by_search.
Qed.

(** C3. The root of the tree [createTreeFromCalls] returns is named ["App"],
    its [startTime] and [endTime] are the dates of the [start_time] and
    [end_time] of the overall timing of the record, and it has no [raw],
    whatever the calls of the record are. *)
Theorem root_invariant h recordJSON p pcs root h' :
  record_at h recordJSON = Some (p, pcs) →
  createTreeFromCalls recordJSON h = Ok root h' →
  ∃ n, h' !! root = Some (ONode n)
       ∧ name n = "App"
       ∧ startTime n = Some (new_Date (start_time p))
       ∧ endTime n = Some (new_Date (end_time p))
       ∧ raw n = None.
Proof.
  intros Hrec Hrun.
  destruct (createTreeFromCalls_Ok _ _ _ _ _ _ Hrec Hrun)
    as (t & Hpure & Hrep & _ & _).
  apply createTreeFromCalls_pure_Done in Hpure
    as (Hname & Hs & He & Hr & _ & _).
  destruct (represents_root _ _ _ Hrep) as (n & Hn & ? & ? & ? & ? & _).
  exists n. split_and!; congruence.
Qed.

(** C4, as the code has it. When a call of the record has an empty stack,
    [createTreeFromCalls] throws a [TypeError] (the read of the name of the
    missing cell [stack[0]]) and returns no tree; the cells of the store it
    started from are unchanged. *)
Theorem empty_stack_throws h recordJSON p pcs :
  record_at h recordJSON = Some (p, pcs) →
  Exists (λ pc, stack pc.2 = []) pcs →
  ∃ h', createTreeFromCalls recordJSON h = Throw TypeError h'
        ∧ ∀ l, l < length h → h' !! l = h !! l.
Proof.
  intros Hrec Hex. pose proof (createTreeFromCalls_sim _ _ _ _ Hrec) as Hsim.
  unfold createTreeFromCalls_pure in Hsim.
  rewrite for_calls_pure_raise in Hsim by done.
  destruct Hsim as (h' & Hrun & _ & Hf). eauto.
Qed.


(** C6. Two calls of [createTreeFromCalls] on the same record, one after
    the other, return two roots that represent the same tree: the same names,
    timing, [raw] and order of children at every node. *)
Theorem build_twice_same_tree h recordJSON p pcs root1 h1 :
  record_at h recordJSON = Some (p, pcs) →
  createTreeFromCalls recordJSON h = Ok root1 h1 →
  ∃ root2 h2 t,
    createTreeFromCalls recordJSON h1 = Ok root2 h2
    ∧ root1 ≠ root2
    ∧ represents h2 root1 t
    ∧ represents h2 root2 t.
Proof.
  intros Hrec Hrun1.
  destruct (createTreeFromCalls_Ok _ _ _ _ _ _ Hrec Hrun1)
    as (t & Hpure & Hrep1 & -> & Hf1).
  assert (Hrec1 : record_at h1 recordJSON = Some (p, pcs))
    by by eapply record_at_frame.
  pose proof (createTreeFromCalls_sim _ _ _ _ Hrec1) as Hsim.
  rewrite Hpure in Hsim. destruct Hsim as (h2 & Hrun2 & Hrep2 & _ & Hf2).
  exists (length h1), h2, t. split_and!; [done| | |done].
  - apply represents_lt in Hrep1. lia.
  - by eapply represents_frame.
Qed.

(** The node a call resolves: an insertion leaves a node with the [raw] and
    the timing of the call, as deep as the cells of the stack left. *)
Lemma inserted_resolves call c stack index t t' :
  inserted call c stack index t t' →
  ∃ path n, length path = length stack - index
            ∧ node_at t' path = Some n ∧ t_raw n = Some call
            ∧ (t_startTime n, t_endTime n)
              = getStartAndEndTimes (Some (perf c)).
Proof.
  induction 1 as [index cell t i m Hlast Hcell Hfind
                 |index cell t Hlast Hcell Hfind
                 |index cell t i m m' Hlt Hcell Hfind Hins IH
                 |index cell t node' Hlt Hcell Hfind Hins IH].
  - apply list_find_Some in Hfind as (Hi & _).
    exists [i], (closed m call c). split_and!; [simpl; lia| |done..].
    rewrite node_at_cons, kids_with_children.
    by rewrite list_lookup_insert_eq by by eapply lookup_lt_Some.
  - exists [length (kids t)], (leaf cell call c).
    split_and!; [simpl; lia| |done..].
    rewrite node_at_cons, kids_with_children.
    by rewrite lookup_app_r, Nat.sub_diag.
  - apply list_find_Some in Hfind as (Hi & _).
    destruct IH as (path & n & Hlen & Hn & Hraw & Htime).
    exists (i :: path), n. split_and!; [simpl; lia| |done..].
    rewrite node_at_cons, kids_with_children.
    by rewrite list_lookup_insert_eq by by eapply lookup_lt_Some.
  - destruct IH as (path & n & Hlen & Hn & Hraw & Htime).
    exists (length (kids t) :: path), n. split_and!; [simpl; lia| |done..].
    rewrite node_at_cons, kids_with_children.
    by rewrite lookup_app_r, Nat.sub_diag.
Qed.

(** A node of the tree stays where it is while further calls are processed,
    with its timing and its [raw], until one of these calls closes it. *)
Lemma for_calls_pure_keeps pcs t1 t path n1 :
  for_calls_pure t1 pcs = Done t →
  node_at t1 path = Some n1 →
  ∃ n, node_at t path = Some n
       ∧ (same_fields n1 n
          ∨ ∃ call' c', (call', c') ∈ pcs ∧ t_raw n = Some call'
                        ∧ (t_startTime n, t_endTime n)
                          = getStartAndEndTimes (Some (perf c'))).
Proof.
  revert t1 n1. induction pcs as [|[call' c'] pcs IH]; intros t1 n1 Hrun Hn1.
  { simplify_eq/=. exists n1. split; [done|by left]. }
  simpl in Hrun.
  destruct (addCallToTree_pure t1 call' c' (stack c') 0) as [t2|e] eqn:Hadd;
    [|done].
  apply addCallToTree_pure_inserted in Hadd.
  destruct (inserted_monotone _ _ _ _ _ _ Hadd) as [q Hq].
  destruct (Hq path n1 Hn1) as (n2 & Hn2 & _).
  destruct (IH t2 n2 Hrun Hn2) as (n & Hn & Hlater).
  exists n. split; [done|].
  destruct Hlater as [(Hs & He & Hr)|(call2 & c2 & Hin & Hraw & Htime)].
  - destruct (inserted_timing _ _ _ _ _ _ Hadd path n1 n2 Hn1 Hn2)
      as [(Hs1 & He1 & Hr1)|(Htime1 & Hraw1 & _)].
    + left. split_and!; congruence.
    + right. exists call', c'. split_and!; [left|congruence|].
      rewrite <- Htime1. congruence.
  - right. exists call2, c2. split_and!; [by right|done..].
Qed.

(** C7. Whatever the timing fields of the calls are, [createTreeFromCalls]
    returns (as long as no stack is empty). In the tree it returns, a node
    whose [raw] is a call has the timing [getStartAndEndTimes] gives for that
    call. And each call of the record resolves a node: once the call is
    processed there is a node as deep as its stack whose [raw] is the call
    and whose timing is what [getStartAndEndTimes] gives, so its [startTime]
    is absent when the call has no [start_time] and its [endTime] is absent
    when the call has no [end_time]; in the tree returned that node is at
    the same place, with the same timing and [raw], unless a later call of
    the record has closed it. *)
Theorem missing_timing_is_absent h recordJSON p pcs :
  record_at h recordJSON = Some (p, pcs) →
  Forall (λ pc, stack pc.2 ≠ []) pcs →
  ∃ root h' t,
    createTreeFromCalls recordJSON h = Ok root h'
    ∧ represents h' root t
    ∧ (∀ path n call c,
         node_at t path = Some n → t_raw n = Some call →
         h !! call = Some (OCall c) →
         (t_startTime n, t_endTime n) = getStartAndEndTimes (Some (perf c))
         ∧ (start_time (perf c) = None → t_startTime n = None)
         ∧ (end_time (perf c) = None → t_endTime n = None))
    ∧ ∀ pcs1 call c pcs2, pcs = pcs1 ++ (call, c) :: pcs2 →
        ∃ t1 path n1 n,
          createTreeFromCalls_pure p (pcs1 ++ [(call, c)]) = Done t1
          ∧ length path = length (stack c) ∧ 1 ≤ length path
          ∧ node_at t1 path = Some n1
          ∧ t_raw n1 = Some call
          ∧ (t_startTime n1, t_endTime n1)
            = getStartAndEndTimes (Some (perf c))
          ∧ (start_time (perf c) = None → t_startTime n1 = None)
          ∧ (end_time (perf c) = None → t_endTime n1 = None)
          ∧ node_at t path = Some n
          ∧ (same_fields n1 n
             ∨ ∃ call' c', (call', c') ∈ pcs2 ∧ t_raw n = Some call'
                           ∧ (t_startTime n, t_endTime n)
                             = getStartAndEndTimes (Some (perf c'))).
Proof.
  intros Hrec Hall. pose proof (createTreeFromCalls_sim _ _ _ _ Hrec) as Hsim.
  destruct (for_calls_pure_total
              (Tree (Some []) "App" (Some (new_Date (start_time p)))
                    (Some (new_Date (end_time p))) None) pcs Hall)
    as [t Hpure].
  change (createTreeFromCalls_pure p pcs = Done t) in Hpure.
  rewrite Hpure in Hsim. destruct Hsim as (h' & Hrun & Hrep & _ & _).
  exists (length h), h', t. split_and!; [done..| |].
  - apply createTreeFromCalls_pure_Done in Hpure
      as (_ & _ & _ & Hr & _ & Hok).
    assert (Htimes : ∀ path n call c,
              node_at t path = Some n → t_raw n = Some call →
              h !! call = Some (OCall c) →
              (t_startTime n, t_endTime n)
              = getStartAndEndTimes (Some (perf c))).
    { intros [|i path] n call c Hn Hraw Hcall.
      { simplify_eq/=; congruence. }
      rewrite node_at_cons in Hn.
      destruct (kids t !! i) as [k|] eqn:Hk; [|done]. simpl in Hn.
      destruct (Hok i k Hk path n Hn) as [_ Hnode].
      destruct (Hnode call Hraw) as (c' & Hin & _ & Heq).
      unfold record_at in Hrec.
      destruct (h !! recordJSON) as [[r| |]|]; try done.
      destruct (calls_at h (calls r)) as [pcs'|] eqn:Hcs; [|done].
      simplify_eq. destruct (calls_at_elem _ _ _ _ _ Hcs Hin) as [Hc' _].
      by simplify_eq. }
    intros path n call c Hn Hraw Hcall.
    pose proof (Htimes path n call c Hn Hraw Hcall) as Heq.
    split_and!; [done|..]; intros Hnone;
      unfold getStartAndEndTimes in Heq; simpl in Heq; rewrite Hnone in Heq;
      by simplify_eq/=.
  - intros pcs1 call c pcs2 ->.
    apply Forall_app in Hall as [_ [Hstack _]%Forall_cons]. simpl in Hstack.
    unfold createTreeFromCalls_pure in Hpure |- *.
    rewrite cons_middle, app_assoc, for_calls_pure_app in Hpure.
    destruct (for_calls_pure _ (pcs1 ++ [(call, c)])) as [t1|e] eqn:Hpure1;
      [|done].
    simpl in Hpure. pose proof Hpure1 as Hlast.
    rewrite for_calls_pure_app in Hlast.
    destruct (for_calls_pure _ pcs1) as [t0|e]; [|done]. simpl in Hlast.
    destruct (addCallToTree_pure t0 call c (stack c) 0) as [t1'|e] eqn:Hadd;
      [|done].
    simpl in Hlast. injection Hlast as ->.
    apply addCallToTree_pure_inserted in Hadd.
    destruct (inserted_resolves _ _ _ _ _ _ Hadd)
      as (path & n1 & Hlen & Hn1 & Hraw & Htime).
    destruct (for_calls_pure_keeps _ _ _ _ _ Hpure Hn1) as (n & Hn & Hkept).
    exists t1, path, n1, n.
    assert (length path = length (stack c)) as Hlen' by lia.
    split_and!; [done|done| |done|done|done| | |done|done].
    + rewrite Hlen'. destruct (stack c); [done|simpl; lia].
    + intros Hnone. unfold getStartAndEndTimes in Htime. simpl in Htime.
      rewrite Hnone in Htime. by simplify_eq/=.
    + intros Hnone. unfold getStartAndEndTimes in Htime. simpl in Htime.
      rewrite Hnone in Htime. by simplify_eq/=.
Qed.

(** C8, as the code has it. In the tree [createTreeFromCalls] returns, the
    [children] field of the root is there (the root is made with an empty
    list), and the [children] field of any other node is absent or lists at
    least one child; the children are in the order the calls added them: the
    tree of any first part of the calls has each of its nodes at the same
    place in the tree of all of them. *)
Theorem children_field h recordJSON p pcs root h' :
  record_at h recordJSON = Some (p, pcs) →
  createTreeFromCalls recordJSON h = Ok root h' →
  ∃ t, represents h' root t
       ∧ is_Some (t_children t)
       ∧ (∀ path n, path ≠ [] → node_at t path = Some n →
            t_children n ≠ Some [])
       ∧ ∀ pcs1 pcs2, pcs = pcs1 ++ pcs2 →
           ∃ t1, createTreeFromCalls_pure p pcs1 = Done t1 ∧ embeds t1 t.
Proof.
  intros Hrec Hrun.
  destruct (createTreeFromCalls_Ok _ _ _ _ _ _ Hrec Hrun)
    as (t & Hpure & Hrep & _ & _).
  exists t. split_and!; [done| | |].
  - by apply createTreeFromCalls_pure_Done in Hpure as (_ & _ & _ & _ & ? & _).
  - apply createTreeFromCalls_pure_Done in Hpure as (_ & _ & _ & _ & _ & Hok).
    intros [|i path] n Hne Hn; [done|]. rewrite node_at_cons in Hn.
    destruct (kids t !! i) as [k|] eqn:Hk; [|done]. simpl in Hn.
    by destruct (Hok i k Hk path n Hn) as [? _].
  - intros pcs1 pcs2 ->. by eapply createTreeFromCalls_pure_prefix.
Qed.

(** C9. [createTreeFromCalls] changes no cell of the store it starts from,
    whether it returns or throws (a [TypeError], nothing else): the record,
    its calls and everything else there are as before. The tree it returns is
    made of new cells, and the [raw] of a node is the reference of one of the
    calls of the record. *)
Theorem input_unchanged h recordJSON p pcs :
  record_at h recordJSON = Some (p, pcs) →
  ∃ h',
    (∀ l, l < length h → h' !! l = h !! l)
    ∧ record_at h' recordJSON = Some (p, pcs)
    ∧ (createTreeFromCalls recordJSON h = Throw TypeError h'
       ∨ ∃ root t,
           createTreeFromCalls recordJSON h = Ok root h'
           ∧ length h ≤ root
           ∧ represents h' root t
           ∧ ∀ path n call,
               node_at t path = Some n → t_raw n = Some call →
               ∃ c, (call, c) ∈ pcs ∧ h' !! call = Some (OCall c)).
Proof.
  intros Hrec. pose proof (createTreeFromCalls_sim _ _ _ _ Hrec) as Hsim.
  destruct (createTreeFromCalls_pure p pcs) as [t|e] eqn:Hpure.
  - destruct Hsim as (h' & Hrun & Hrep & _ & Hf).
    exists h'. split_and!; [done|by eapply record_at_frame|].
    right. exists (length h), t. split_and!; [done..|].
    apply createTreeFromCalls_pure_Done in Hpure
      as (_ & _ & _ & Hr & _ & Hok).
    intros [|i path] n call Hn Hraw.
    { simplify_eq/=; congruence. }
    rewrite node_at_cons in Hn.
    destruct (kids t !! i) as [k|] eqn:Hk; [|done]. simpl in Hn.
    destruct (Hok i k Hk path n Hn) as [_ Hnode].
    destruct (Hnode call Hraw) as (c & Hin & _).
    exists c. split; [done|].
    unfold record_at in Hrec.
    destruct (h !! recordJSON) as [[r| |]|]; try done.
    destruct (calls_at h (calls r)) as [pcs'|] eqn:Hcs; [|done].
    simplify_eq. destruct (calls_at_elem _ _ _ _ _ Hcs Hin) as [Hc _].
    rewrite Hf; [done|]. by eapply lookup_lt_Some.
  - destruct Hsim as (h' & Hrun & _ & Hf).
    apply createTreeFromCalls_pure_Raise in Hpure as ->.
    exists h'. split_and!; [done|by eapply record_at_frame|]. by left.
Qed.

(** C10. One run of [addCallToTree] that returns keeps every node of the
    tree where it is and with its name, and changes the timing and the [raw]
    of the node at one place [q] at most; it adds at most one node at each of
    the depths [1] to [length stack - index] below the node it starts from,
    and none elsewhere. *)
Theorem growth_is_monotone h tree t call c stack index h' :
  represents h tree t →
  h !! call = Some (OCall c) →
  addCallToTree tree call stack index h = Ok tt h' →
  ∃ t' q,
    represents h' tree t'
    ∧ (∀ path n, node_at t path = Some n →
         ∃ n', node_at t' path = Some n' ∧ t_name n' = t_name n
               ∧ (path ≠ q → same_fields n n'))
    ∧ ∀ d, length (level d t')
           ≤ length (level d t) + one_upto (length stack - index) d.
Proof.
  intros (lt & Hst & Hnd & <- & <-) Hcall Hrun.
  pose proof (addCallToTree_sim h lt call c stack index Hcall Hst Hnd) as Hsim.
  destruct (addCallToTree_pure (erase lt) call c stack index) as [t'|e]
    eqn:Hpure.
  - destruct Hsim as (h1 & lt' & Hrun1 & Hst' & Hnd' & Herase & [Hroot _] & _).
    rewrite Hrun in Hrun1. injection Hrun1 as <-.
    apply addCallToTree_pure_inserted in Hpure.
    destruct (inserted_monotone _ _ _ _ _ _ Hpure) as [q Hq].
    exists t', q. split_and!; [by exists lt'|done|].
    by apply (inserted_level call c).
  - destruct Hsim as (h1 & Hrun1 & _). congruence.
Qed.

(** ** Further properties of [addCallToTree] *)

(** X1. On a tree of the store, [addCallToTree] returns exactly when
    [index] is within the stack, and throws a [TypeError] exactly when it is
    not: the recursion always ends, at the last cell. *)
Theorem addCallToTree_index_bounds h tree t call c stack index :
  represents h tree t →
  h !! call = Some (OCall c) →
  ((∃ h', addCallToTree tree call stack index h = Ok tt h')
   ↔ index < length stack)
  ∧ ((∃ h', addCallToTree tree call stack index h = Throw TypeError h')
     ↔ length stack ≤ index).
Proof.
  intros Hrep Hcall.
  destruct (addCallToTree_total h tree t call c stack index Hrep Hcall)
    as [Hok Hthrow].
  split; split.
  - intros [h' Hrun]. destruct (decide (index < length stack)); [done|].
    destruct Hthrow as [h1 Hrun1]; [lia|congruence].
  - done.
  - intros [h' Hrun]. destruct (decide (length stack ≤ index)); [done|].
    destruct Hok as [h1 Hrun1]; [lia|congruence].
  - done.
Qed.

(** *** A call that matches no child *)

(** X2. When the search at [stack[index]] finds no child, [addCallToTree]
    appends one new branch to the node it starts from and changes nothing
    else: a node without timing for each cell from [index] on but the last,
    each the only child of the one before, ending in the node closed by the
    call. *)
Theorem unmatched_call_appends_chain h tree t call c stack index cell :
  represents h tree t →
  h !! call = Some (OCall c) →
  stack !! index = Some cell →
  list_find (matchesTree_b cell c) (kids t) = None →
  ∃ h',
    addCallToTree tree call stack index h = Ok tt h'
    ∧ represents h' tree
        (with_children t
           (kids t ++ [chain call c cell (drop (S index) stack)])).
Proof.
  intros Hrep Hcall Hcell Hfind.
  destruct (addCallToTree_represents h tree t call c stack index
              (with_children t
                 (kids t ++ [chain call c cell (drop (S index) stack)]))
              Hrep Hcall) as (h' & Hrun & Hrep' & _).
  { apply addCallToTree_pure_inserted. by apply inserted_chain. }
  eauto.
Qed.

Lemma matches_b_invalid_date cell c nm s e :
  new_Date (start_time (perf c)) = None
  ∨ new_Date (end_time (perf c)) = None →
  matches_b cell c nm s e = false.
Proof.
  unfold matches_b. intros [-> | ->]; simpl.
  - destruct (nullish s (Num 0)); by rewrite andb_false_r.
  - unfold number_ge. by rewrite andb_false_r.
Qed.

(** X3. A call whose [start_time] or [end_time] is missing or is no valid
    date matches no child at any node, whatever the names and the timing of
    the children: [addCallToTree] then never merges it into a node that is
    there, it appends a whole new branch for it. *)
Theorem call_without_date_is_never_merged h tree t call c stack index cell :
  represents h tree t →
  h !! call = Some (OCall c) →
  stack !! index = Some cell →
  new_Date (start_time (perf c)) = None
  ∨ new_Date (end_time (perf c)) = None →
  ∃ h',
    addCallToTree tree call stack index h = Ok tt h'
    ∧ represents h' tree
        (with_children t
           (kids t ++ [chain call c cell (drop (S index) stack)])).
Proof.
  intros Hrep Hcall Hcell Hdate.
  destruct (addCallToTree_represents h tree t call c stack index
              (with_children t
                 (kids t ++ [chain call c cell (drop (S index) stack)]))
              Hrep Hcall) as (h' & Hrun & Hrep' & _); [|by eauto].
  apply addCallToTree_pure_inserted, inserted_chain; [done..|].
  apply list_find_None, Forall_forall. intros n _.
  unfold matchesTree_b. rewrite matches_b_invalid_date by done. by intros [].
Qed.

(** *** Processing a call again *)

Lemma list_find_insert_same {A} (P : A → Prop) `{∀ x, Decision (P x)}
    (l : list A) i x y :
  list_find P l = Some (i, x) → P y →
  list_find P (<[i := y]> l) = Some (i, y).
Proof.
  intros (Hi & _ & Hbefore)%list_find_Some Hy. apply list_find_Some.
  split_and!; [|done|].
  - apply list_lookup_insert_eq. by eapply lookup_lt_Some.
  - intros j z Hj Hlt. rewrite list_lookup_insert_ne in Hj by lia. eauto.
Qed.

Lemma list_find_app_new {A} (P : A → Prop) `{∀ x, Decision (P x)}
    (l : list A) y :
  list_find P l = None → P y →
  list_find P (l ++ [y]) = Some (length l, y).
Proof.
  intros Hnone%list_find_None Hy. apply list_find_Some. split_and!; [|done|].
  - by rewrite lookup_app_r, Nat.sub_diag.
  - intros j z Hj Hlt. rewrite lookup_app_l in Hj by done.
    rewrite Forall_forall in Hnone. apply Hnone.
    by eapply list_elem_of_lookup_2.
Qed.

(** The timing of the call [c] is two valid dates, the first not before the
    epoch: a node closed by [c] matches [c], and so does a node without
    timing. *)
Lemma matches_b_closed cell c nm s e sv ev :
  new_Date (start_time (perf c)) = Some sv → (0 ≤ sv)%Z →
  new_Date (end_time (perf c)) = Some ev →
  matches_b cell c nm s e = true →
  matches_b cell c nm (getStartAndEndTimes (Some (perf c))).1
            (getStartAndEndTimes (Some (perf c))).2 = true.
Proof.
  intros Hs Hsv He. unfold matches_b. rewrite Hs, He.
  intros [[Hname _]%andb_prop _]%andb_prop. rewrite Hname. simpl.
  apply andb_true_intro. split.
  - destruct (start_time (perf c)) as [str|]; simpl; [|done].
    simpl in Hs. destruct (truthy str); simpl.
    + rewrite Hs. simpl. by apply Z.leb_le.
    + by apply Z.leb_le.
  - destruct (end_time (perf c)) as [str|]; simpl; [|done].
    simpl in He. destruct (truthy str); simpl; [|done].
    rewrite He. unfold number_ge. simpl. by apply Z.leb_le.
Qed.

Lemma matches_b_no_timing cell c sv ev :
  new_Date (start_time (perf c)) = Some sv → (0 ≤ sv)%Z →
  new_Date (end_time (perf c)) = Some ev →
  matches_b cell c (cellName cell) None None = true.
Proof.
  intros Hs Hsv He. unfold matches_b. rewrite Hs, He, String.eqb_refl. simpl.
  rewrite andb_true_r. by apply Z.leb_le.
Qed.

Lemma inserted_idempotent call c stack index t t1 sv ev :
  new_Date (start_time (perf c)) = Some sv → (0 ≤ sv)%Z →
  new_Date (end_time (perf c)) = Some ev →
  inserted call c stack index t t1 →
  inserted call c stack index t1 t1.
Proof.
  intros Hs Hsv He.
  induction 1 as [index cell t i m Hlast Hcell Hfind
                 |index cell t Hlast Hcell Hfind
                 |index cell t i m m' Hlt Hcell Hfind Hins IH
                 |index cell t node' Hlt Hcell Hfind Hins IH].
  - pose proof Hfind as (_ & Hm & _)%list_find_Some.
    assert (Hm' : matchesTree_b cell c (closed m call c)).
    { apply Is_true_true. apply Is_true_true in Hm.
      by apply (matches_b_closed cell c (t_name m) (t_startTime m)
                  (t_endTime m) sv ev). }
    pose proof (inserted_close call c stack index cell
                  (with_children t (<[i := closed m call c]> (kids t))) i _
                  Hlast Hcell
                  (list_find_insert_same _ _ _ _ _ Hfind Hm')) as Hagain.
    rewrite kids_with_children, list_insert_insert_eq in Hagain.
    exact Hagain.
  - assert (Hleaf : matchesTree_b cell c (leaf cell call c)).
    { apply Is_true_true.
      apply (matches_b_closed cell c (cellName cell) None None sv ev);
        [done..|].
      by apply (matches_b_no_timing cell c sv ev). }
    pose proof (inserted_close call c stack index cell
                  (with_children t (kids t ++ [leaf cell call c])) _ _
                  Hlast Hcell
                  (list_find_app_new _ _ _ Hfind Hleaf)) as Hagain.
    rewrite kids_with_children in Hagain.
    rewrite list_insert_id in Hagain; [exact Hagain|].
    by rewrite lookup_app_r, Nat.sub_diag.
  - pose proof Hfind as (_ & Hm & _)%list_find_Some.
    destruct (inserted_shape _ _ _ _ _ _ Hins) as (cs & _ & Hm').
    assert (Hmatch : matchesTree_b cell c m') by by rewrite Hm'.
    pose proof (inserted_descend call c stack index cell
                  (with_children t (<[i := m']> (kids t))) i _ _ Hlt Hcell
                  (list_find_insert_same _ _ _ _ _ Hfind Hmatch) IH)
      as Hagain.
    rewrite kids_with_children, list_insert_insert_eq in Hagain.
    exact Hagain.
  - destruct (inserted_shape _ _ _ _ _ _ Hins) as (cs & _ & Hn').
    assert (Hmatch : matchesTree_b cell c node').
    { rewrite Hn'. apply Is_true_true.
      by apply (matches_b_no_timing cell c sv ev). }
    pose proof (inserted_descend call c stack index cell
                  (with_children t (kids t ++ [node'])) _ _ _ Hlt Hcell
                  (list_find_app_new _ _ _ Hfind Hmatch) IH) as Hagain.
    rewrite kids_with_children in Hagain.
    rewrite list_insert_id in Hagain; [exact Hagain|].
    by rewrite lookup_app_r, Nat.sub_diag.
Qed.

(** X4. Processing a call a second time changes nothing, when its
    [start_time] and [end_time] are valid dates and the first is not before
    the epoch: at each cell of the stack the search finds the node the first
    run went through, and at the last cell it closes the same node with the
    same timing and [raw]. *)
Theorem addCallToTree_twice h tree t call c stack index sv ev h1 :
  represents h tree t →
  h !! call = Some (OCall c) →
  new_Date (start_time (perf c)) = Some sv → (0 ≤ sv)%Z →
  new_Date (end_time (perf c)) = Some ev →
  addCallToTree tree call stack index h = Ok tt h1 →
  ∃ t1 h2,
    represents h1 tree t1
    ∧ addCallToTree tree call stack index h1 = Ok tt h2
    ∧ represents h2 tree t1.
Proof.
  intros Hrep Hcall Hs Hsv He Hrun.
  destruct (addCallToTree_Ok_pure _ _ _ _ _ _ _ _ Hrep Hcall Hrun)
    as (t1 & Hpure & Hrep1 & Hcall1).
  apply addCallToTree_pure_inserted in Hpure.
  apply (inserted_idempotent _ _ _ _ _ _ sv ev) in Hpure; [|done..].
  apply addCallToTree_pure_inserted in Hpure.
  destruct (addCallToTree_represents _ _ _ _ _ _ _ _ Hrep1 Hcall1 Hpure)
    as (h2 & Hrun2 & Hrep2 & _).
  eauto.
Qed.

(** ** Further properties of [createTreeFromCalls] *)

(** *** How wide the tree is *)

Lemma for_calls_pure_level t pcs t' :
  for_calls_pure t pcs = Done t' →
  ∀ d, 1 ≤ d →
    length (level d t')
    ≤ length (level d t)
      + length (filter (λ pc, d ≤ length (stack pc.2)) pcs).
Proof.
  revert t. induction pcs as [|[call c] pcs IH]; intros t Hrun d Hd.
  { simplify_eq/=. lia. }
  simpl in Hrun.
  destruct (addCallToTree_pure t call c (stack c) 0) as [t1|e] eqn:Hadd;
    [|done].
  simpl in Hrun. specialize (IH t1 Hrun d Hd).
  apply addCallToTree_pure_inserted in Hadd.
  pose proof (inserted_level _ _ _ _ _ _ Hadd d) as Hlevel.
  unfold one_upto in Hlevel. rewrite Nat.sub_0_r in Hlevel.
  rewrite filter_cons. simpl.
  case_bool_decide; case_decide; simpl; lia.
Qed.

(** X5. The tree [createTreeFromCalls] returns has, at each depth [d] from 1
    on, at most as many nodes as the record has calls whose stack has [d]
    cells or more; so the root has no more children than there are calls,
    and no node is deeper than the longest stack. *)
Theorem width_bound h recordJSON p pcs root h' :
  record_at h recordJSON = Some (p, pcs) →
  createTreeFromCalls recordJSON h = Ok root h' →
  ∃ t, represents h' root t
       ∧ ∀ d, 1 ≤ d →
           length (level d t)
           ≤ length (filter (λ pc, d ≤ length (stack pc.2)) pcs).
Proof.
  intros Hrec Hrun.
  destruct (createTreeFromCalls_Ok _ _ _ _ _ _ Hrec Hrun)
    as (t & Hpure & Hrep & _ & _).
  exists t. split; [done|]. intros d Hd.
  unfold createTreeFromCalls_pure in Hpure.
  pose proof (for_calls_pure_level _ _ _ Hpure d Hd) as Hlevel.
  rewrite (level_no_kids d (Tree (Some []) _ _ _ _) eq_refl) in Hlevel.
  destruct d as [|d]; lia.
Qed.

(** *** The nodes no call has closed *)

(** A property of the nodes that the four ways through [addCallToTree] keep
    is kept below the node an insertion starts from. *)
Lemma inserted_all_below (P : nat → StackTree → Prop) call c stack index
    t t' :
  (∀ d n cs, cs ≠ [] → P d n → P d (with_children n cs)) →
  (∀ d m, P d m → P d (closed m call c)) →
  (∀ d cell, P d (leaf cell call c)) →
  (∀ d cell cs, cs ≠ [] → P d (with_children (placeholder cell) cs)) →
  inserted call c stack index t t' →
  all_below P index t → all_below P index t'.
Proof.
  intros Hwith Hclosed Hleaf Hplace Hins.
  induction Hins as [index cell t i m Hlast Hcell Hfind
                    |index cell t Hlast Hcell Hfind
                    |index cell t i m m' Hlt Hcell Hfind Hins IH
                    |index cell t node' Hlt Hcell Hfind Hins IH];
    intros Hbelow.
  - apply list_find_Some in Hfind as (Hi & _).
    apply all_below_insert; [done|].
    pose proof (Hbelow i m Hi) as [Hm Hmb]%all_nodes_unfold.
    apply all_nodes_unfold. split; [by apply Hclosed|done].
  - apply all_below_app; [done|]. apply all_nodes_unfold.
    split; [apply Hleaf|by intros j x].
  - apply list_find_Some in Hfind as (Hi & _).
    apply all_below_insert; [done|].
    pose proof (Hbelow i m Hi) as [Hm Hmb]%all_nodes_unfold.
    destruct (inserted_shape _ _ _ _ _ _ Hins) as (cs & Hcs & Heq).
    apply all_nodes_unfold. split; [|by apply IH].
    rewrite Heq. by apply Hwith.
  - apply all_below_app; [done|].
    destruct (inserted_shape _ _ _ _ _ _ Hins) as (cs & Hcs & Heq).
    apply all_nodes_unfold. split.
    + rewrite Heq. by apply Hplace.
    + apply IH. by intros j x.
Qed.

Lemma for_calls_pure_all_below (P : nat → StackTree → Prop) t pcs t' :
  (∀ d n cs, cs ≠ [] → P d n → P d (with_children n cs)) →
  (∀ d m call c, P d m → P d (closed m call c)) →
  (∀ d cell call c, P d (leaf cell call c)) →
  (∀ d cell cs, cs ≠ [] → P d (with_children (placeholder cell) cs)) →
  for_calls_pure t pcs = Done t' →
  all_below P 0 t → all_below P 0 t'.
Proof.
  intros Hwith Hclosed Hleaf Hplace. revert t.
  induction pcs as [|[call c] pcs IH]; intros t Hrun Hbelow.
  { by simplify_eq/=. }
  simpl in Hrun.
  destruct (addCallToTree_pure t call c (stack c) 0) as [t1|e] eqn:Hadd;
    [|done].
  apply addCallToTree_pure_inserted in Hadd.
  apply (IH t1); [done|].
  eapply (inserted_all_below P); eauto.
Qed.

(** X6. In the tree [createTreeFromCalls] returns, every node but the root
    that has no child has a [raw]: a node made for a cell above the last of a
    stack always gets the child the call goes on to, so the nodes no call has
    closed are never the ends of the tree. *)
Theorem childless_nodes_have_raw h recordJSON p pcs root h' :
  record_at h recordJSON = Some (p, pcs) →
  createTreeFromCalls recordJSON h = Ok root h' →
  ∃ t, represents h' root t
       ∧ ∀ path n, path ≠ [] → node_at t path = Some n →
           kids n = [] → is_Some (t_raw n).
Proof.
  intros Hrec Hrun.
  destruct (createTreeFromCalls_Ok _ _ _ _ _ _ Hrec Hrun)
    as (t & Hpure & Hrep & _ & _).
  exists t. split; [done|].
  assert (Hbelow : all_below (λ _ n, kids n = [] → is_Some (t_raw n)) 0 t).
  { eapply (for_calls_pure_all_below _ _ pcs); [..|exact Hpure|].
    - intros d n cs Hcs _ Hk. done.
    - intros d m call c _ _. by eexists.
    - intros d cell call c _. by eexists.
    - intros d cell cs Hcs Hk. done.
    - by intros i k. }
  intros [|i path] n Hne Hn; [done|]. rewrite node_at_cons in Hn.
  destruct (kids t !! i) as [k|] eqn:Hk; [|done]. simpl in Hn.
  by apply (Hbelow i k Hk path n).
Qed.

(** *** The names along a path *)

Lemma names_at_cons t i path :
  names_at t (i :: path)
  = kids t !! i ≫= λ k, names_at k path ≫= λ ns, Some (t_name k :: ns).
Proof. done. Qed.

Lemma names_at_same_kids t t' path :
  kids t = kids t' → names_at t path = names_at t' path.
Proof. intros Hk. destruct path; simpl; [done|]. by rewrite Hk. Qed.

Lemma names_at_no_kids t path ns :
  kids t = [] → names_at t path = Some ns → path = [].
Proof. intros Hk. destruct path; simpl; [done|]. by rewrite Hk. Qed.

Lemma matchesTree_b_name cell c m :
  matchesTree_b cell c m → t_name m = cellName cell.
Proof.
  unfold matchesTree_b, matches_b.
  intros [[Hname%Is_true_true _]%andb_True _]%andb_True.
  by apply String.eqb_eq.
Qed.

(** An insertion of the call [c] of [pcs] at a node reached by the names of
    the first [index] cells of its stack: the names along each path, after
    those, are still the names of the first cells of the stack of a call of
    [pcs]. *)
Lemma inserted_spells (pcs : list (loc * CallJSONRaw)) call c index t t' :
  (call, c) ∈ pcs →
  inserted call c (stack c) index t t' →
  (∀ path ns, path ≠ [] → names_at t path = Some ns →
     ∃ call' c', (call', c') ∈ pcs
       ∧ (take index (cellName <$> stack c) ++ ns)
           `prefix_of` (cellName <$> stack c')) →
  ∀ path ns, path ≠ [] → names_at t' path = Some ns →
    ∃ call' c', (call', c') ∈ pcs
      ∧ (take index (cellName <$> stack c) ++ ns)
          `prefix_of` (cellName <$> stack c').
Proof.
  intros Hin Hins.
  assert (Hnew : ∀ index cell, stack c !! index = Some cell →
            ∃ call' c', (call', c') ∈ pcs
              ∧ (take index (cellName <$> stack c) ++ [cellName cell])
                  `prefix_of` (cellName <$> stack c')).
  { intros idx cell Hcell. exists call, c. split; [done|].
    erewrite <- take_S_r by by rewrite list_lookup_fmap, Hcell.
    apply prefix_take. }
  induction Hins as [index cell t i m Hlast Hcell Hfind
                    |index cell t Hlast Hcell Hfind
                    |index cell t i m m' Hlt Hcell Hfind Hins IH
                    |index cell t node' Hlt Hcell Hfind Hins IH];
    intros Hold [|j path] ns Hne Hns; try done; clear Hne;
    rewrite names_at_cons, kids_with_children in Hns.
  - apply list_find_Some in Hfind as (Hi & _).
    apply (Hold (j :: path) ns); [done|]. rewrite names_at_cons.
    destruct (decide (j = i)) as [->|Hji].
    + rewrite list_lookup_insert_eq in Hns by by eapply lookup_lt_Some.
      rewrite Hi. simpl in *.
      by rewrite (names_at_same_kids m (closed m call c)).
    + by rewrite list_lookup_insert_ne in Hns.
  - destruct (kids t !! j) as [k|] eqn:Hj.
    + rewrite (lookup_app_l_Some _ _ _ _ Hj) in Hns.
      apply (Hold (j :: path) ns); [done|]. by rewrite names_at_cons, Hj.
    + apply lookup_ge_None in Hj.
      destruct ((kids t ++ [leaf cell call c]) !! j) as [k|] eqn:Hk; [|done].
      apply lookup_app_Some in Hk as [Hk|[_ Hk]];
        [apply lookup_lt_Some in Hk; lia|].
      apply list_lookup_singleton_Some in Hk as [_ <-]. simpl in Hns.
      destruct (names_at (leaf cell call c) path) as [ns'|] eqn:Hns';
        [|done].
      apply names_at_no_kids in Hns' as Hpath; [|done]. subst path.
      simplify_eq/=. by apply Hnew.
  - pose proof Hfind as (Hi & Hm%matchesTree_b_name & _)%list_find_Some.
    destruct (inserted_shape _ _ _ _ _ _ Hins) as (cs & _ & Hm').
    destruct (decide (j = i)) as [->|Hji].
    + rewrite list_lookup_insert_eq in Hns by by eapply lookup_lt_Some.
      simpl in Hns.
      destruct (names_at m' path) as [ns'|] eqn:Hns'; [|done].
      simplify_eq/=. destruct path as [|r path].
      * simplify_eq/=. apply (Hold [i]); [done|].
        rewrite names_at_cons, Hi. done.
      * assert (Htake : take (S index) (cellName <$> stack c)
                        = take index (cellName <$> stack c) ++ [t_name m]).
        { rewrite Hm. apply take_S_r. by rewrite list_lookup_fmap, Hcell. }
        rewrite Htake in IH.
        replace (take index (cellName <$> stack c) ++ t_name m :: ns')
          with ((take index (cellName <$> stack c) ++ [t_name m]) ++ ns')
          by by rewrite <- (assoc_L (++)).
        apply (λ H, IH H (r :: path)); [|done|done].
        intros path' ns'' Hne' Hns''. rewrite <- (assoc_L (++)). simpl.
        apply (Hold (i :: path')); [done|].
        rewrite names_at_cons, Hi. simpl. by rewrite Hns''.
    + rewrite list_lookup_insert_ne in Hns by done.
      apply (Hold (j :: path) ns); [done|]. by rewrite names_at_cons.
  - destruct (inserted_shape _ _ _ _ _ _ Hins) as (cs & _ & Hn').
    destruct (kids t !! j) as [k|] eqn:Hj.
    + rewrite (lookup_app_l_Some _ _ _ _ Hj) in Hns.
      apply (Hold (j :: path) ns); [done|]. by rewrite names_at_cons, Hj.
    + apply lookup_ge_None in Hj.
      destruct ((kids t ++ [node']) !! j) as [k|] eqn:Hk; [|done].
      apply lookup_app_Some in Hk as [Hk|[_ Hk]];
        [apply lookup_lt_Some in Hk; lia|].
      apply list_lookup_singleton_Some in Hk as [_ <-]. simpl in Hns.
      destruct (names_at node' path) as [ns'|] eqn:Hns'; [|done].
      simplify_eq/=. destruct path as [|r path].
      * simplify_eq/=. by apply Hnew.
      * assert (Htake : take (S index) (cellName <$> stack c)
                        = take index (cellName <$> stack c)
                          ++ [cellName cell]).
        { apply take_S_r. by rewrite list_lookup_fmap, Hcell. }
        rewrite Htake in IH.
        replace (take index (cellName <$> stack c) ++ cellName cell :: ns')
          with ((take index (cellName <$> stack c) ++ [cellName cell])
                ++ ns')
          by by rewrite <- (assoc_L (++)).
        apply (λ H, IH H (r :: path)); [|done|done].
        intros path' ns'' Hne' Hns''.
        by apply names_at_no_kids in Hns''.
Qed.

Lemma for_calls_pure_spells (pcs : list (loc * CallJSONRaw)) pcs' t t' :
  pcs' ⊆ pcs →
  for_calls_pure t pcs' = Done t' →
  (∀ path ns, path ≠ [] → names_at t path = Some ns →
     ∃ call c, (call, c) ∈ pcs ∧ ns `prefix_of` (cellName <$> stack c)) →
  ∀ path ns, path ≠ [] → names_at t' path = Some ns →
    ∃ call c, (call, c) ∈ pcs ∧ ns `prefix_of` (cellName <$> stack c).
Proof.
  revert t. induction pcs' as [|[call c] pcs' IH]; intros t Hsub Hrun Hold.
  { by simplify_eq/=. }
  simpl in Hrun.
  destruct (addCallToTree_pure t call c (stack c) 0) as [t1|e] eqn:Hadd;
    [|done].
  apply addCallToTree_pure_inserted in Hadd.
  apply (IH t1); [|done|].
  - intros x Hx. apply Hsub. by right.
  - apply (inserted_spells pcs call c 0 t t1); [|done..].
    apply Hsub. left.
Qed.

(** X7. In the tree [createTreeFromCalls] returns, the names of the nodes
    along any path from the root are the names of the first cells of the
    stack of one of the calls of the record, in their order. *)
Theorem paths_spell_stacks h recordJSON p pcs root h' :
  record_at h recordJSON = Some (p, pcs) →
  createTreeFromCalls recordJSON h = Ok root h' →
  ∃ t, represents h' root t
       ∧ ∀ path ns, path ≠ [] → names_at t path = Some ns →
           ∃ call c, h !! call = Some (OCall c)
                     ∧ (call, c) ∈ pcs
                     ∧ ns `prefix_of` (cellName <$> stack c).
Proof.
  intros Hrec Hrun.
  destruct (createTreeFromCalls_Ok _ _ _ _ _ _ Hrec Hrun)
    as (t & Hpure & Hrep & _ & _).
  exists t. split; [done|]. intros path ns Hne Hns.
  destruct (for_calls_pure_spells pcs pcs _ _ (reflexivity _) Hpure)
    with (path := path) (ns := ns) as (call & c & Hin & Hprefix); [|done..|].
  { intros path' ns' Hne' Hns'. by apply names_at_no_kids in Hns'. }
  exists call, c. split_and!; [|done..].
  unfold record_at in Hrec.
  destruct (h !! recordJSON) as [[r| |]|]; try done.
  destruct (calls_at h (calls r)) as [pcs'|] eqn:Hcs; [|done].
  simplify_eq. by destruct (calls_at_elem _ _ _ _ _ Hcs Hin).
Qed.

(** *** One node for each call *)

(** After an insertion, the [raw] of the call is at one place [q]; the
    [raw] of a node at any other place is absent or is the [raw] of a node
    that was at that place before. *)
Lemma inserted_raws call c stack index t t' :
  inserted call c stack index t t' →
  ∃ q, (∃ n, node_at t' q = Some n ∧ t_raw n = Some call)
       ∧ ∀ path n', path ≠ q → node_at t' path = Some n' →
           t_raw n' = None
           ∨ ∃ n, node_at t path = Some n ∧ t_raw n = t_raw n'.
Proof.
  induction 1 as [index cell t i m Hlast Hcell Hfind
                 |index cell t Hlast Hcell Hfind
                 |index cell t i m m' Hlt Hcell Hfind Hins IH
                 |index cell t node' Hlt Hcell Hfind Hins IH].
  - apply list_find_Some in Hfind as (Hi & _).
    exists [i]. split.
    { exists (closed m call c). split; [|done].
      rewrite node_at_cons, kids_with_children.
      by rewrite list_lookup_insert_eq by by eapply lookup_lt_Some. }
    intros [|j path] n' Hq Hn'.
    { simplify_eq/=. right. by exists t. }
    rewrite node_at_cons, kids_with_children in Hn'.
    destruct (decide (j = i)) as [->|Hji].
    + rewrite list_lookup_insert_eq in Hn' by by eapply lookup_lt_Some.
      destruct path as [|r path]; [done|]. right. exists n'.
      split; [|done]. rewrite node_at_cons, Hi. done.
    + rewrite list_lookup_insert_ne in Hn' by done. right. by exists n'.
  - exists [length (kids t)]. split.
    { exists (leaf cell call c). split; [|done].
      rewrite node_at_cons, kids_with_children.
      by rewrite lookup_app_r, Nat.sub_diag. }
    intros [|j path] n' Hq Hn'.
    { simplify_eq/=. right. by exists t. }
    rewrite node_at_cons, kids_with_children in Hn'.
    destruct (kids t !! j) as [k|] eqn:Hj.
    + rewrite (lookup_app_l_Some _ _ _ _ Hj) in Hn'. right. exists n'.
      split; [|done]. by rewrite node_at_cons, Hj.
    + apply lookup_ge_None in Hj.
      destruct ((kids t ++ [leaf cell call c]) !! j) as [k|] eqn:Hk; [|done].
      apply lookup_app_Some in Hk as [Hk|[_ Hk]];
        [apply lookup_lt_Some in Hk; lia|].
      apply list_lookup_singleton_Some in Hk as [Hj0 <-].
      destruct path as [|r path]; [|done].
      assert (j = length (kids t)) as -> by lia. done.
  - apply list_find_Some in Hfind as (Hi & _).
    destruct IH as (q & (n & Hn & Hraw) & IH).
    exists (i :: q). split.
    { exists n. split; [|done].
      rewrite node_at_cons, kids_with_children.
      by rewrite list_lookup_insert_eq by by eapply lookup_lt_Some. }
    intros [|j path] n' Hq Hn'.
    { simplify_eq/=. right. by exists t. }
    rewrite node_at_cons, kids_with_children in Hn'.
    destruct (decide (j = i)) as [->|Hji].
    + rewrite list_lookup_insert_eq in Hn' by by eapply lookup_lt_Some.
      destruct (IH path n') as [?|(n0 & Hn0 & Hraw0)];
        [congruence|done|by left|].
      right. exists n0. split; [|done]. by rewrite node_at_cons, Hi.
    + rewrite list_lookup_insert_ne in Hn' by done. right. by exists n'.
  - destruct IH as (q & (n & Hn & Hraw) & IH).
    exists (length (kids t) :: q). split.
    { exists n. split; [|done].
      rewrite node_at_cons, kids_with_children.
      by rewrite lookup_app_r, Nat.sub_diag. }
    intros [|j path] n' Hq Hn'.
    { simplify_eq/=. right. by exists t. }
    rewrite node_at_cons, kids_with_children in Hn'.
    destruct (kids t !! j) as [k|] eqn:Hj.
    + rewrite (lookup_app_l_Some _ _ _ _ Hj) in Hn'. right. exists n'.
      split; [|done]. by rewrite node_at_cons, Hj.
    + apply lookup_ge_None in Hj.
      destruct ((kids t ++ [node']) !! j) as [k|] eqn:Hk; [|done].
      apply lookup_app_Some in Hk as [Hk|[_ Hk]];
        [apply lookup_lt_Some in Hk; lia|].
      apply list_lookup_singleton_Some in Hk as [Hj0 <-].
      assert (j = length (kids t)) as -> by lia. simpl in Hn'.
      destruct (IH path n') as [?|(n0 & Hn0 & Hraw0)];
        [congruence|done|by left|].
      left. destruct path as [|r path]; [|done]. simplify_eq/=. done.
Qed.

Lemma for_calls_pure_raws (pcs : list (loc * CallJSONRaw)) t t' (seen : list loc) :
  NoDup (seen ++ pcs.*1) →
  for_calls_pure t pcs = Done t' →
  (∀ path n call, node_at t path = Some n → t_raw n = Some call →
     call ∈ seen
     ∧ ∀ path' n', node_at t path' = Some n' → t_raw n' = Some call →
         path' = path) →
  ∀ path n call, node_at t' path = Some n → t_raw n = Some call →
    call ∈ seen ++ pcs.*1
    ∧ ∀ path' n', node_at t' path' = Some n' → t_raw n' = Some call →
        path' = path.
Proof.
  revert t seen. induction pcs as [|[call c] pcs IH]; intros t seen Hnd Hrun Hold.
  { simplify_eq/=. by rewrite app_nil_r. }
  simpl in Hrun.
  destruct (addCallToTree_pure t call c (stack c) 0) as [t1|e] eqn:Hadd;
    [|done].
  apply addCallToTree_pure_inserted in Hadd.
  rewrite fmap_cons, cons_middle, app_assoc in Hnd |- *.
  apply (IH t1 (seen ++ [call])); [done..|]. clear IH Hrun.
  assert (call ∉ seen) as Hnew.
  { apply NoDup_app in Hnd as (Hnd & _).
    apply NoDup_app in Hnd as (_ & Hnd & _).
    intros Hin. apply (Hnd _ Hin). left. }
  destruct (inserted_raws _ _ _ _ _ _ Hadd) as (q & (nq & Hq & Hrawq) & Hrest).
  assert (∀ path n call', node_at t1 path = Some n → t_raw n = Some call' →
            (path = q ∧ call' = call)
            ∨ (path ≠ q ∧ ∃ n0, node_at t path = Some n0
                                 ∧ t_raw n0 = Some call')) as Hcases.
  { intros path n call' Hn Hraw. destruct (decide (path = q)) as [->|Hne].
    - left. split; [done|]. congruence.
    - right. split; [done|].
      destruct (Hrest path n Hne Hn) as [?|(n0 & Hn0 & Hraw0)]; [congruence|].
      exists n0. split; [done|]. congruence. }
  intros path n call' Hn Hraw.
  destruct (Hcases _ _ _ Hn Hraw) as [[-> ->]|(Hne & n0 & Hn0 & Hraw0)].
  - split; [apply elem_of_app; right; left|].
    intros path' n' Hn' Hraw'.
    destruct (Hcases _ _ _ Hn' Hraw') as [[-> _]|(_ & n1 & Hn1 & Hraw1)];
      [done|].
    by destruct (Hold _ _ _ Hn1 Hraw1) as (? & _).
  - destruct (Hold _ _ _ Hn0 Hraw0) as (Hseen & Huniq).
    split; [apply elem_of_app; by left|].
    intros path' n' Hn' Hraw'.
    destruct (Hcases _ _ _ Hn' Hraw') as [[-> ->]|(_ & n1 & Hn1 & Hraw1)];
      [done|].
    by apply (Huniq path' n1).
Qed.

(** X8. When the record lists each call once, every [raw] in the tree
    [createTreeFromCalls] returns is a call of the record, and no two nodes
    of the tree have the same [raw]. *)
Theorem one_node_for_each_call h recordJSON p pcs root h' :
  record_at h recordJSON = Some (p, pcs) →
  NoDup pcs.*1 →
  createTreeFromCalls recordJSON h = Ok root h' →
  ∃ t, represents h' root t
       ∧ ∀ path n call, node_at t path = Some n → t_raw n = Some call →
           call ∈ pcs.*1
           ∧ ∀ path' n', node_at t path' = Some n' → t_raw n' = Some call →
               path' = path.
Proof.
  intros Hrec Hnd Hrun.
  destruct (createTreeFromCalls_Ok _ _ _ _ _ _ Hrec Hrun)
    as (t & Hpure & Hrep & _ & _).
  exists t. split; [done|].
  unfold createTreeFromCalls_pure in Hpure.
  apply (for_calls_pure_raws pcs _ t [] Hnd Hpure).
  intros [|i path] n call Hn Hraw; simplify_eq/=.
Qed.

(** *** The shape of the result in the store *)

Lemma walk_stored h lt path :
  stored h lt → walk h (root_loc lt) path = root_loc <$> lnode_at lt path.
Proof.
  revert lt. induction path as [|i path IH]; intros lt Hst;
    destruct (stored_inv _ _ Hst) as [Hcell Hkids]; simpl; rewrite Hcell.
  { done. }
  assert (default [] (children (cell_of lt)) = root_loc <$> lkids lt) as ->.
  { by destruct lt as [l [ts|] nm s e r]. }
  rewrite list_lookup_fmap.
  destruct (lkids lt !! i) as [k|] eqn:Hk; [|done]. simpl.
  apply IH. by eapply (Forall_lookup_1 _ _ _ _ Hkids).
Qed.

Lemma lnode_at_locs lt path k :
  lnode_at lt path = Some k → locs k ⊆ locs lt.
Proof.
  revert lt. induction path as [|i path IH]; intros lt Hk; simplify_eq/=.
  { done. }
  destruct (lkids lt !! i) as [k'|] eqn:Hi; [|done]. simpl in Hk.
  intros l Hl. apply (IH _ Hk) in Hl. rewrite (locs_unfold lt). right.
  apply list_elem_of_join. exists (locs k'). split; [done|].
  apply list_elem_of_fmap_2. by eapply list_elem_of_lookup_2.
Qed.

Lemma root_loc_locs t : root_loc t ∈ locs t.
Proof. rewrite locs_unfold. left. Qed.

Lemma lnode_at_inj lt p1 p2 k1 k2 :
  NoDup (locs lt) →
  lnode_at lt p1 = Some k1 → lnode_at lt p2 = Some k2 →
  root_loc k1 = root_loc k2 → p1 = p2.
Proof.
  revert lt p2. induction p1 as [|i p1 IH]; intros lt [|j p2] Hnd H1 H2 Heq;
    simpl in H1, H2.
  - done.
  - destruct (lkids lt !! j) as [k|] eqn:Hj; [|done]. simpl in H2.
    simplify_eq. destruct (locs_kid_not_root _ _ _ Hnd Hj).
    rewrite Heq. apply (lnode_at_locs _ _ _ H2), root_loc_locs.
  - destruct (lkids lt !! i) as [k|] eqn:Hi; [|done]. simpl in H1.
    simplify_eq. destruct (locs_kid_not_root _ _ _ Hnd Hi).
    rewrite <- Heq. apply (lnode_at_locs _ _ _ H1), root_loc_locs.
  - destruct (lkids lt !! i) as [a|] eqn:Hi; [|done].
    destruct (lkids lt !! j) as [b|] eqn:Hj; [|done]. simpl in H1, H2.
    destruct (decide (i = j)) as [->|Hij].
    + simplify_eq. f_equal.
      apply (IH a p2); [by eapply locs_kid_NoDup|done..].
    + destruct (locs_kids_disjoint lt i j a b (root_loc k1) Hnd Hi Hj Hij).
      * apply (lnode_at_locs _ _ _ H1), root_loc_locs.
      * rewrite Heq. apply (lnode_at_locs _ _ _ H2), root_loc_locs.
Qed.

Lemma createTreeFromCalls_fresh h recordJSON p pcs root h' :
  record_at h recordJSON = Some (p, pcs) →
  createTreeFromCalls recordJSON h = Ok root h' →
  ∃ lt, stored h' lt ∧ NoDup (locs lt) ∧ root_loc lt = root
        ∧ ∀ l, l ∈ locs lt → length h ≤ l.
Proof.
  unfold record_at. intros Hrec.
  destruct (h !! recordJSON) as [[r|c|n]|] eqn:Hr; try done.
  destruct (calls_at h (calls r)) as [pcs'|] eqn:Hcs; [|done]. simplify_eq/=.
  set (root0 := LT (length h) (Some []) "App"
                  (Some (new_Date (start_time (record_perf r))))
                  (Some (new_Date (end_time (record_perf r)))) None).
  set (h0 := h ++ [ONode (cell_of root0)]).
  assert (Hst : stored h0 root0).
  { constructor; [|constructor]. unfold h0. simpl.
    by rewrite lookup_app_r, Nat.sub_diag. }
  assert (Hrun0 : createTreeFromCalls recordJSON h
                  = (for_calls (root_loc root0) (calls r) ;;; ret (length h)) h0).
  { unfold createTreeFromCalls, getRecord, newNode. unfold bind at 1.
    by rewrite Hr. }
  rewrite Hrun0. clear Hrun0.
  assert (Hlen0 : length h0 = S (length h)).
  { unfold h0. rewrite length_app. simpl. lia. }
  assert (Hcs0 : calls_at h0 (calls r) = Some pcs).
  { eapply calls_at_frame; [|done]. intros l c Hl. unfold h0.
    rewrite lookup_app_l; [done|]. by eapply lookup_lt_Some. }
  pose proof (for_calls_sim (calls r) h0 root0 pcs Hcs0 Hst
                (NoDup_singleton _)) as Hsim.
  destruct (for_calls_pure _ pcs) as [t|e].
  - destruct Hsim as (h1 & lt' & Hrun & Hst' & Hnd' & _ & [Hr' Hfresh] & _).
    rewrite (bind_Ok _ _ _ _ _ Hrun). intros [= <- <-].
    exists lt'. split_and!; [done..|].
    intros l Hl. destruct (Hfresh l Hl) as [Hin|Hge]; [|lia].
    apply list_elem_of_singleton in Hin. simpl in Hin. lia.
  - destruct Hsim as (h1 & Hrun & _).
    by rewrite (bind_Throw _ _ _ _ _ Hrun).
Qed.

(** X9. What [createTreeFromCalls] returns is a tree of new objects: every
    node reached from the root through [children] is an object the call
    created, and two different ways down from the root lead to two
    different objects. *)
Theorem result_is_a_tree_of_new_nodes h recordJSON p pcs root h' :
  record_at h recordJSON = Some (p, pcs) →
  createTreeFromCalls recordJSON h = Ok root h' →
  walk h' root [] = Some root
  ∧ (∀ path l, walk h' root path = Some l → length h ≤ l < length h')
  ∧ (∀ path1 path2 l,
       walk h' root path1 = Some l → walk h' root path2 = Some l →
       path1 = path2).
Proof.
  intros Hrec Hrun.
  destruct (createTreeFromCalls_fresh _ _ _ _ _ _ Hrec Hrun)
    as (lt & Hst & Hnd & <- & Hfresh).
  split_and!.
  - by rewrite (walk_stored _ _ _ Hst).
  - intros path l. rewrite (walk_stored _ _ _ Hst).
    destruct (lnode_at lt path) as [k|] eqn:Hk; [|done]. intros [= <-].
    assert (root_loc k ∈ locs lt) as Hin
      by apply (lnode_at_locs _ _ _ Hk), root_loc_locs.
    split; [by apply Hfresh|by eapply stored_locs_lt].
  - intros path1 path2 l. rewrite !(walk_stored _ _ _ Hst).
    destruct (lnode_at lt path1) as [k1|] eqn:Hk1; [|done].
    destruct (lnode_at lt path2) as [k2|] eqn:Hk2; [|done].
    intros [= <-] [= Heq]. by eapply (lnode_at_inj lt).
Qed.

(** *** Timing is rewritten only inwards *)

(** X10. [addCallToTree] rewrites the timing of a node that was in the tree
    only when the call ran within the interval of that node (an absent start
    read as [0], an absent end as [Infinity]), and then to the timing of the
    call; the timing and the [raw] of every other node stay. *)
Theorem timing_is_rewritten_inwards h tree t call c stack index h' :
  represents h tree t →
  h !! call = Some (OCall c) →
  addCallToTree tree call stack index h = Ok tt h' →
  ∃ t', represents h' tree t'
        ∧ ∀ path n n', node_at t path = Some n → node_at t' path = Some n' →
            same_fields n n' ∨ rewritten_within call c n n'.
Proof.
  intros Hrep Hcall Hrun.
  destruct (addCallToTree_Ok_pure _ _ _ _ _ _ _ _ Hrep Hcall Hrun)
    as (t' & Hpure & Hrep' & _).
  exists t'. split; [done|].
  by apply (inserted_timing call c stack index), addCallToTree_pure_inserted.
Qed.

End WithDateParse.

(** ** The scenarios of the specification *)

(** [retriever] over [0, 10], then [get_context] under it over [2, 8]: one
    child of the root, with one child. *)
Example scenario_nested :
  createTreeFromCalls_pure sample_parse run_perf
    [(0, retriever_call); (1, nested_call)]
  = Done (Tree (Some [Tree (Some [Tree None "get_context" (Some (Some 2%Z))
                                       (Some (Some 8%Z)) (Some 1)])
                           "retriever" (Some (Some 0%Z)) (Some (Some 10%Z))
                           (Some 0)])
               "App" (Some (Some 0%Z)) (Some (Some 15%Z)) None).
Proof. reflexivity. Qed.

(** The same calls in the other order: the node made for [retriever] on the
    way to [get_context] is closed by the call of [retriever]. *)
Example scenario_nested_reversed :
  createTreeFromCalls_pure sample_parse run_perf
    [(1, nested_call); (0, retriever_call)]
  = Done (Tree (Some [Tree (Some [Tree None "get_context" (Some (Some 2%Z))
                                       (Some (Some 8%Z)) (Some 1)])
                           "retriever" (Some (Some 0%Z)) (Some (Some 10%Z))
                           (Some 0)])
               "App" (Some (Some 0%Z)) (Some (Some 15%Z)) None).
Proof. reflexivity. Qed.

(** Two calls of [synthesizer] over disjoint intervals: two children. *)
Example scenario_siblings :
  createTreeFromCalls_pure sample_parse run_perf
    [(0, early_call); (1, late_call)]
  = Done (Tree (Some [Tree None "synthesizer" (Some (Some 0%Z))
                           (Some (Some 5%Z)) (Some 0);
                      Tree None "synthesizer" (Some (Some 10%Z))
                           (Some (Some 15%Z)) (Some 1)])
               "App" (Some (Some 0%Z)) (Some (Some 15%Z)) None).
Proof. reflexivity. Qed.

(** The first scenario over the store: the root is a new cell, and the three
    cells of the input are as they were. *)
Example scenario_nested_store :
  createTreeFromCalls sample_parse 2 nested_store
  = Ok 3 (nested_store
          ++ [ONode {| children := Some [4]; name := "App";
                       startTime := Some (Some 0%Z);
                       endTime := Some (Some 15%Z); raw := None |};
              ONode {| children := Some [5]; name := "retriever";
                       startTime := Some (Some 0%Z);
                       endTime := Some (Some 10%Z); raw := Some 0 |};
              ONode {| children := None; name := "get_context";
                       startTime := Some (Some 2%Z);
                       endTime := Some (Some 8%Z); raw := Some 1 |}]).
Proof. reflexivity. Qed.

(** ** The properties on the sample inputs *)

Lemma represents_open_store : represents open_store 1 open_tree.
Proof.
  exists (LT 1 (Some [LT 2 (Some []) "retriever" None None None]) "App"
            (Some (Some 0%Z)) (Some (Some 15%Z)) None).
  split_and!; [| |done..].
  - constructor; [done|]. repeat constructor.
  - simpl. apply NoDup_cons.
    split; [by intros ?%list_elem_of_singleton|apply NoDup_singleton].
Defined.

Lemma represents_closing_store : represents closing_store 1 open_tree.
Proof.
  exists (LT 1 (Some [LT 2 (Some []) "retriever" None None None]) "App"
            (Some (Some 0%Z)) (Some (Some 15%Z)) None).
  split_and!; [| |done..].
  - constructor; [done|]. repeat constructor.
  - simpl. apply NoDup_cons.
    split; [by intros ?%list_elem_of_singleton|apply NoDup_singleton].
Defined.

Lemma represents_siblings_store : represents siblings_store 1 siblings_tree.
Proof.
  exists (LT 1 (Some [LT 2 None "retriever" (Some (Some 10%Z))
                         (Some (Some 15%Z)) None;
                      LT 3 None "retriever" (Some (Some 0%Z))
                         (Some (Some 10%Z)) None;
                      LT 4 (Some []) "retriever" None None None])
            "App" (Some (Some 0%Z)) (Some (Some 15%Z)) None).
  split_and!; [| |done..].
  - constructor; [done|]. repeat constructor.
  - simpl.
    repeat (apply NoDup_cons; split;
            [rewrite ?not_elem_of_cons, elem_of_nil; intuition lia|]).
    apply NoDup_nil_2.
Defined.

(** The search at [retriever] for the call over [2, 8], among three children
    of that name: the first, over [10, 15], does not contain the call; the
    second, over [0, 10], does, and so does the third, which has no timing.
    The second is the one descended into: the node of the call is its
    child, and the two others are as before. *)
Lemma addCallToTree_selects_first_contained_witness :
  ∃ h',
    addCallToTree sample_parse 1 0 (stack nested_call) 0 siblings_store
    = Ok tt h'
    ∧ represents h' 1
        (Tree (Some [Tree None "retriever" (Some (Some 10%Z))
                          (Some (Some 15%Z)) None;
                     Tree (Some [Tree None "get_context" (Some (Some 2%Z))
                                      (Some (Some 8%Z)) (Some 0)])
                          "retriever" (Some (Some 0%Z)) (Some (Some 10%Z))
                          None;
                     Tree (Some []) "retriever" None None None])
              "App" (Some (Some 0%Z)) (Some (Some 15%Z)) None).
Proof.
  destruct (addCallToTree_selects_first_contained sample_parse siblings_store
              1 siblings_tree 0 nested_call (stack nested_call) 0
              (frame "retriever") 2 8 represents_siblings_store
              eq_refl eq_refl eq_refl ltac:(lia) eq_refl)
    as (_ & h' & Hrun & m' & Hrep & Hm').
  exists h'. split; [exact Hrun|].
  vm_compute in Hm'. injection Hm' as <-. exact Hrep.
Defined.

(** The call one second before the epoch, whose one frame is [retriever],
    on the tree whose root has the open [retriever] node as its only child:
    the predicate of the specification accepts that child, by its name
    alone, yet [addCallToTree] does not close it; it appends a second
    child. *)
Lemma search_before_epoch_counterexample :
  first_contained sample_parse (frame "retriever") before_epoch_call
    [Tree (Some []) "retriever" None None None]
  = Some (0, Tree (Some []) "retriever" None None None)
  ∧ contains_spec "retriever"
      (new_Date sample_parse (start_time (perf before_epoch_call)))
      (new_Date sample_parse (end_time (perf before_epoch_call)))
      (name open_retriever) (startTime open_retriever)
      (endTime open_retriever) = true
  ∧ addCallToTree sample_parse 1 0 (stack before_epoch_call) 0
      before_epoch_store
    = Ok tt
        [ OCall before_epoch_call;
          ONode {| children := Some [2; 3]; name := "App";
                   startTime := Some (Some (-1000)%Z);
                   endTime := Some (Some 15%Z); raw := None |};
          ONode open_retriever;
          ONode {| children := None; name := "retriever";
                   startTime := Some (Some (-1000)%Z);
                   endTime := Some (Some 0%Z); raw := Some 0 |} ].
Proof. split_and!; vm_compute; reflexivity. Qed.

(** The call of [retriever] over [0, 10], whose one cell is the last, on the
    tree with the open [retriever] node: the node is closed, and no child is
    added. *)
Lemma addCallToTree_last_cell_witness :
  ∃ h',
    addCallToTree sample_parse 1 0 (stack retriever_call) 0 closing_store
    = Ok tt h'
    ∧ represents h' 1
        (Tree (Some [Tree (Some []) "retriever" (Some (Some 0%Z))
                          (Some (Some 10%Z)) (Some 0)])
              "App" (Some (Some 0%Z)) (Some (Some 15%Z)) None).
Proof.
  apply (addCallToTree_last_cell sample_parse closing_store 1 open_tree 0
           retriever_call (stack retriever_call) 0 (frame "retriever") 0 10
           represents_closing_store eq_refl eq_refl eq_refl eq_refl
           ltac:(lia) eq_refl).
Defined.

(** The call of [retriever] with no [start_time], whose one cell is the
    last, on the same tree: the predicate of the specification accepts the
    open node, by its name alone, yet [addCallToTree] does not close it; it
    appends a second child. *)
Lemma untimed_last_cell_counterexample :
  first_contained sample_parse (frame "retriever") untimed_call
    [Tree (Some []) "retriever" None None None]
  = Some (0, Tree (Some []) "retriever" None None None)
  ∧ contains_spec "retriever"
      (new_Date sample_parse (start_time (perf untimed_call)))
      (new_Date sample_parse (end_time (perf untimed_call)))
      (name open_retriever) (startTime open_retriever)
      (endTime open_retriever) = true
  ∧ addCallToTree sample_parse 1 0 (stack untimed_call) 0 untimed_open_store
    = Ok tt
        [ OCall untimed_call;
          ONode {| children := Some [2; 3]; name := "App";
                   startTime := Some (Some 0%Z);
                   endTime := Some (Some 15%Z); raw := None |};
          ONode open_retriever;
          ONode {| children := None; name := "retriever";
                   startTime := None;
                   endTime := Some (Some 10%Z); raw := Some 0 |} ].
Proof. split_and!; vm_compute; reflexivity. Qed.

Lemma root_invariant_witness :
  ∃ root h' n,
    createTreeFromCalls sample_parse 2 nested_store = Ok root h'
    ∧ h' !! root = Some (ONode n)
    ∧ name n = "App"
    ∧ startTime n = Some (Some 0%Z)
    ∧ endTime n = Some (Some 15%Z)
    ∧ raw n = None.
Proof.
  destruct (root_invariant sample_parse nested_store 2 _ _ _ _
              ltac:(vm_compute; reflexivity) ltac:(vm_compute; reflexivity))
    as (n & Hn).
  eexists _, _, n. split; [vm_compute; reflexivity|exact Hn].
Defined.

(** The store with an empty stack: no tree, a [TypeError]. *)
Lemma empty_stack_counterexample :
  createTreeFromCalls sample_parse 1 empty_stack_store
  = Throw TypeError
      (empty_stack_store
       ++ [ONode {| children := Some []; name := "App";
                    startTime := Some (Some 0%Z);
                    endTime := Some (Some 15%Z); raw := None |}]).
Proof. vm_compute. reflexivity. Qed.

Lemma empty_stack_throws_witness :
  ∃ h', createTreeFromCalls sample_parse 1 empty_stack_store
        = Throw TypeError h'
        ∧ ∀ l, l < length empty_stack_store →
               h' !! l = empty_stack_store !! l.
Proof.
  apply (empty_stack_throws sample_parse empty_stack_store 1 run_perf
           [(0, stackless_call)]); [done|].
  by apply Exists_cons_hd.
Defined.


Lemma build_twice_same_tree_witness :
  ∃ root1 h1 root2 h2 t,
    createTreeFromCalls sample_parse 2 nested_store = Ok root1 h1
    ∧ createTreeFromCalls sample_parse 2 h1 = Ok root2 h2
    ∧ root1 ≠ root2
    ∧ represents h2 root1 t
    ∧ represents h2 root2 t.
Proof.
  destruct (build_twice_same_tree sample_parse nested_store 2 _ _ _ _
              ltac:(vm_compute; reflexivity) ltac:(vm_compute; reflexivity))
    as (root2 & h2 & t & Ht).
  eexists _, _, root2, h2, t. split; [vm_compute; reflexivity|exact Ht].
Defined.

(** The record of a call of [retriever] over [0, 10] and a call of
    [retriever] with no [start_time]: the second gets a node of its own, with
    no [startTime]. *)
Lemma missing_timing_is_absent_witness :
  ∃ root h' t,
    createTreeFromCalls sample_parse 2 untimed_pair_store = Ok root h'
    ∧ represents h' root t
    ∧ (∀ path n call c,
         node_at t path = Some n → t_raw n = Some call →
         untimed_pair_store !! call = Some (OCall c) →
         (t_startTime n, t_endTime n)
         = getStartAndEndTimes sample_parse (Some (perf c))
         ∧ (start_time (perf c) = None → t_startTime n = None)
         ∧ (end_time (perf c) = None → t_endTime n = None))
    ∧ ∀ pcs1 call c pcs2,
        [(0, retriever_call); (1, untimed_call)]
        = pcs1 ++ (call, c) :: pcs2 →
        ∃ t1 path n1 n,
          createTreeFromCalls_pure sample_parse run_perf
            (pcs1 ++ [(call, c)]) = Done t1
          ∧ length path = length (stack c) ∧ 1 ≤ length path
          ∧ node_at t1 path = Some n1
          ∧ t_raw n1 = Some call
          ∧ (t_startTime n1, t_endTime n1)
            = getStartAndEndTimes sample_parse (Some (perf c))
          ∧ (start_time (perf c) = None → t_startTime n1 = None)
          ∧ (end_time (perf c) = None → t_endTime n1 = None)
          ∧ node_at t path = Some n
          ∧ (same_fields n1 n
             ∨ ∃ call' c', (call', c') ∈ pcs2 ∧ t_raw n = Some call'
                           ∧ (t_startTime n, t_endTime n)
                             = getStartAndEndTimes sample_parse
                                 (Some (perf c'))).
Proof.
  apply (missing_timing_is_absent sample_parse untimed_pair_store 2 run_perf
           [(0, retriever_call); (1, untimed_call)]); [done|].
  by repeat constructor.
Defined.

(** The record with no calls: the root has a [children] field, an empty
    list, though no child was added. *)
Lemma root_children_counterexample :
  ∃ n,
    createTreeFromCalls sample_parse 0 no_calls_store
    = Ok 1 (no_calls_store ++ [ONode n])
    ∧ children n = Some [].
Proof. eexists. split; [vm_compute; reflexivity|done]. Qed.

Lemma children_field_witness :
  ∃ root h' t,
    createTreeFromCalls sample_parse 2 nested_store = Ok root h'
    ∧ represents h' root t
    ∧ is_Some (t_children t)
    ∧ (∀ path n, path ≠ [] → node_at t path = Some n →
         t_children n ≠ Some [])
    ∧ ∀ pcs1 pcs2,
        [(0, retriever_call); (1, nested_call)] = pcs1 ++ pcs2 →
        ∃ t1, createTreeFromCalls_pure sample_parse run_perf pcs1 = Done t1
              ∧ embeds t1 t.
Proof.
  destruct (children_field sample_parse nested_store 2 _ _ _ _
              ltac:(vm_compute; reflexivity) ltac:(vm_compute; reflexivity))
    as (t & Ht).
  eexists _, _, t. split; [vm_compute; reflexivity|exact Ht].
Defined.

Lemma input_unchanged_witness :
  ∃ h',
    (∀ l, l < length nested_store → h' !! l = nested_store !! l)
    ∧ record_at h' 2 = record_at nested_store 2
    ∧ (createTreeFromCalls sample_parse 2 nested_store = Throw TypeError h'
       ∨ ∃ root t,
           createTreeFromCalls sample_parse 2 nested_store = Ok root h'
           ∧ length nested_store ≤ root
           ∧ represents h' root t
           ∧ ∀ path n call,
               node_at t path = Some n → t_raw n = Some call →
               ∃ c, (call, c) ∈ [(0, retriever_call); (1, nested_call)]
                    ∧ h' !! call = Some (OCall c)).
Proof.
  apply (input_unchanged sample_parse nested_store 2 run_perf
           [(0, retriever_call); (1, nested_call)]).
  done.
Defined.

Lemma growth_is_monotone_witness :
  ∃ h' t' q,
    addCallToTree sample_parse 1 0 (stack nested_call) 0 open_store = Ok tt h'
    ∧ represents h' 1 t'
    ∧ (∀ path n, node_at open_tree path = Some n →
         ∃ n', node_at t' path = Some n' ∧ t_name n' = t_name n
               ∧ (path ≠ q → same_fields n n'))
    ∧ ∀ d, length (level d t')
           ≤ length (level d open_tree) + one_upto 2 d.
Proof.
  destruct (growth_is_monotone sample_parse open_store 1 open_tree 0
              nested_call (stack nested_call) 0 _ represents_open_store
              eq_refl ltac:(vm_compute; reflexivity))
    as (t' & q & Ht).
  eexists _, t', q. split; [vm_compute; reflexivity|exact Ht].
Defined.

(** ** More properties on the sample inputs *)

Lemma represents_deep_store : represents deep_store 1 open_tree.
Proof.
  exists (LT 1 (Some [LT 2 (Some []) "retriever" None None None]) "App"
            (Some (Some 0%Z)) (Some (Some 15%Z)) None).
  split_and!; [| |done..].
  - constructor; [done|]. repeat constructor.
  - simpl. apply NoDup_cons.
    split; [by intros ?%list_elem_of_singleton|apply NoDup_singleton].
Defined.

Lemma represents_untimed_open_store :
  represents untimed_open_store 1 open_tree.
Proof.
  exists (LT 1 (Some [LT 2 (Some []) "retriever" None None None]) "App"
            (Some (Some 0%Z)) (Some (Some 15%Z)) None).
  split_and!; [| |done..].
  - constructor; [done|]. repeat constructor.
  - simpl. apply NoDup_cons.
    split; [by intros ?%list_elem_of_singleton|apply NoDup_singleton].
Defined.

(** The call [get_context], of two cells, at index 0. *)
Lemma addCallToTree_index_bounds_witness :
  ((∃ h', addCallToTree sample_parse 1 0 (stack nested_call) 0 open_store
          = Ok tt h')
   ↔ 0 < length (stack nested_call))
  ∧ ((∃ h', addCallToTree sample_parse 1 0 (stack nested_call) 0 open_store
            = Throw TypeError h')
     ↔ length (stack nested_call) ≤ 0).
Proof.
  apply (addCallToTree_index_bounds sample_parse open_store 1 open_tree 0
           nested_call (stack nested_call) 0 represents_open_store eq_refl).
Defined.

(** The call of [llm] under [synthesizer]: a node for [synthesizer] with the
    node of the call under it, after the open [retriever] node. *)
Lemma unmatched_call_appends_chain_witness :
  ∃ h',
    addCallToTree sample_parse 1 0 (stack deep_call) 0 deep_store = Ok tt h'
    ∧ represents h' 1
        (Tree (Some [Tree (Some []) "retriever" None None None;
                     Tree (Some [Tree None "llm" (Some (Some 2%Z))
                                      (Some (Some 8%Z)) (Some 0)])
                          "synthesizer" None None None])
              "App" (Some (Some 0%Z)) (Some (Some 15%Z)) None).
Proof.
  apply (unmatched_call_appends_chain sample_parse deep_store 1 open_tree 0
           deep_call (stack deep_call) 0 (frame "synthesizer")
           represents_deep_store eq_refl eq_refl eq_refl).
Defined.

(** The call of [retriever] with no [start_time] gets a node of its own,
    beside the open [retriever] node. *)
Lemma call_without_date_is_never_merged_witness :
  ∃ h',
    addCallToTree sample_parse 1 0 (stack untimed_call) 0 untimed_open_store
    = Ok tt h'
    ∧ represents h' 1
        (Tree (Some [Tree (Some []) "retriever" None None None;
                     Tree None "retriever" None (Some (Some 10%Z)) (Some 0)])
              "App" (Some (Some 0%Z)) (Some (Some 15%Z)) None).
Proof.
  apply (call_without_date_is_never_merged sample_parse untimed_open_store 1
           open_tree 0 untimed_call (stack untimed_call) 0 (frame "retriever")
           represents_untimed_open_store eq_refl eq_refl).
  by left.
Defined.

Lemma addCallToTree_twice_witness :
  ∃ h1 t1 h2,
    addCallToTree sample_parse 1 0 (stack nested_call) 0 open_store = Ok tt h1
    ∧ represents h1 1 t1
    ∧ addCallToTree sample_parse 1 0 (stack nested_call) 0 h1 = Ok tt h2
    ∧ represents h2 1 t1.
Proof.
  destruct (addCallToTree_twice sample_parse open_store 1 open_tree 0
              nested_call (stack nested_call) 0 2 8 _ represents_open_store
              eq_refl eq_refl ltac:(lia) eq_refl
              ltac:(vm_compute; reflexivity))
    as (t1 & h2 & Ht).
  eexists _, t1, h2. split; [vm_compute; reflexivity|exact Ht].
Defined.

Lemma width_bound_witness :
  ∃ root h' t,
    createTreeFromCalls sample_parse 2 nested_store = Ok root h'
    ∧ represents h' root t
    ∧ ∀ d, 1 ≤ d →
        length (level d t)
        ≤ length (filter (λ pc, d ≤ length (stack pc.2))
                    [(0, retriever_call); (1, nested_call)]).
Proof.
  destruct (width_bound sample_parse nested_store 2 _ _ _ _
              ltac:(vm_compute; reflexivity) ltac:(vm_compute; reflexivity))
    as (t & Ht).
  eexists _, _, t. split; [vm_compute; reflexivity|exact Ht].
Defined.

Lemma childless_nodes_have_raw_witness :
  ∃ root h' t,
    createTreeFromCalls sample_parse 2 nested_store = Ok root h'
    ∧ represents h' root t
    ∧ ∀ path n, path ≠ [] → node_at t path = Some n →
        kids n = [] → is_Some (t_raw n).
Proof.
  destruct (childless_nodes_have_raw sample_parse nested_store 2 _ _ _ _
              ltac:(vm_compute; reflexivity) ltac:(vm_compute; reflexivity))
    as (t & Ht).
  eexists _, _, t. split; [vm_compute; reflexivity|exact Ht].
Defined.

Lemma paths_spell_stacks_witness :
  ∃ root h' t,
    createTreeFromCalls sample_parse 2 nested_store = Ok root h'
    ∧ represents h' root t
    ∧ ∀ path ns, path ≠ [] → names_at t path = Some ns →
        ∃ call c, nested_store !! call = Some (OCall c)
                  ∧ (call, c) ∈ [(0, retriever_call); (1, nested_call)]
                  ∧ ns `prefix_of` (cellName <$> stack c).
Proof.
  destruct (paths_spell_stacks sample_parse nested_store 2 _ _ _ _
              ltac:(vm_compute; reflexivity) ltac:(vm_compute; reflexivity))
    as (t & Ht).
  eexists _, _, t. split; [vm_compute; reflexivity|exact Ht].
Defined.

Lemma one_node_for_each_call_witness :
  ∃ root h' t,
    createTreeFromCalls sample_parse 2 nested_store = Ok root h'
    ∧ represents h' root t
    ∧ ∀ path n call, node_at t path = Some n → t_raw n = Some call →
        call ∈ [0; 1]
        ∧ ∀ path' n', node_at t path' = Some n' → t_raw n' = Some call →
            path' = path.
Proof.
  assert (NoDup [(0, retriever_call); (1, nested_call)].*1) as Hnd.
  { simpl. apply NoDup_cons.
    split; [by intros ?%list_elem_of_singleton|apply NoDup_singleton]. }
  destruct (one_node_for_each_call sample_parse nested_store 2 run_perf
              [(0, retriever_call); (1, nested_call)] _ _
              eq_refl Hnd ltac:(vm_compute; reflexivity))
    as (t & Ht).
  eexists _, _, t. split; [vm_compute; reflexivity|exact Ht].
Defined.

Lemma result_is_a_tree_of_new_nodes_witness :
  ∃ root h',
    createTreeFromCalls sample_parse 2 nested_store = Ok root h'
    ∧ walk h' root [] = Some root
    ∧ (∀ path l, walk h' root path = Some l →
         length nested_store ≤ l < length h')
    ∧ (∀ path1 path2 l,
         walk h' root path1 = Some l → walk h' root path2 = Some l →
         path1 = path2).
Proof.
  eexists _, _. split; [vm_compute; reflexivity|].
  apply (result_is_a_tree_of_new_nodes sample_parse nested_store 2 run_perf
           [(0, retriever_call); (1, nested_call)]);
    [done|vm_compute; reflexivity].
Defined.

(** The call of [retriever] over [0, 10] on the tree with the open
    [retriever] node. *)
Lemma timing_is_rewritten_inwards_witness :
  ∃ h' t',
    addCallToTree sample_parse 1 0 (stack retriever_call) 0 closing_store
    = Ok tt h'
    ∧ represents h' 1 t'
    ∧ ∀ path n n',
        node_at open_tree path = Some n → node_at t' path = Some n' →
        same_fields n n'
        ∨ rewritten_within sample_parse 0 retriever_call n n'.
Proof.
  destruct (timing_is_rewritten_inwards sample_parse closing_store 1
              open_tree 0 retriever_call (stack retriever_call) 0 _
              represents_closing_store eq_refl
              ltac:(vm_compute; reflexivity))
    as (t' & Ht).
  eexists _, t'. split; [vm_compute; reflexivity|exact Ht].
Defined.
